(** * Reminder bot: scheduling, parsing and store discipline

    A shallow embedding of [index.js] (a Telegram reminder bot written with
    grammY) and the properties of its parser, its JSON file store, its
    command handlers and its scheduler tick.

    Conventions of the embedding.
    - A JavaScript string is the sequence of its UTF-16 code units; the
      embedding covers the strings whose code units are below 256, one
      [ascii] per code unit.
    - A JavaScript number is an integer of [Z]: every quantity of the
      program (ids, chat ids, epoch milliseconds) is integral, and double
      arithmetic is exact on integers below 2^53 in magnitude.
    - [Date.now()], the Telegram transport and the file system are the
      environment: they live in the [World] that every handler threads. *)

From Stdlib Require Import ZArith NArith Ascii String List Bool Lia.
From Stdlib Require Import DecimalString Sorting.Sorted Sorting.Permutation.
From Stdlib Require DecimalFacts DecimalN.
From stdpp Require Import base option list gmap strings.

Local Open Scope Z_scope.

(** ** Code units and character classes *)

Module Char.

Definition code (c : ascii) : N := N_of_ascii c.

(** [\d] *)
Definition isDigit (c : ascii) : bool :=
  (48 <=? code c)%N && (code c <=? 57)%N.

(** [\s], and the set [String.prototype.trim] strips: TAB, LF, VT, FF, CR,
    SPACE and NBSP are its members below 256. *)
Definition isSpace (c : ascii) : bool :=
  match code c with
  | 9 | 10 | 11 | 12 | 13 | 32 | 160 => true
  | _ => false
  end%N.

(** LF and CR, the line terminators below 256. *)
Definition isLineTerminator (c : ascii) : bool :=
  match code c with
  | 10 | 13 => true
  | _ => false
  end%N.

(** [.] without the [s] flag *)
Definition isDot (c : ascii) : bool := negb (isLineTerminator c).

(** Canonicalize of a pattern with the [i] flag and without [u]: the
    upper-case mapping, except that a code unit at or above 128 is never
    mapped below 128.  Only the comparison with ASCII pattern characters
    matters here, so the ASCII letters are the ones folded. *)
Definition canonicalize (c : ascii) : ascii :=
  if (97 <=? code c)%N && (code c <=? 122)%N
  then ascii_of_N (code c - 32) else c.

(** A pattern character under the [i] flag. *)
Definition isChar (p c : ascii) : bool :=
  bool_decide (canonicalize c = canonicalize p).

(** A class [[...]] of pattern characters under the [i] flag. *)
Definition isOneOf (ps : list ascii) (c : ascii) : bool :=
  existsb (fun p => isChar p c) ps.

(** [String.prototype.toLowerCase] on one code unit below 256. *)
Definition toLowerCase (c : ascii) : ascii :=
  if ((65 <=? code c) && (code c <=? 90)
      || (192 <=? code c) && (code c <=? 222) && negb (code c =? 215))%N
  then ascii_of_N (code c + 32) else c.

End Char.

(** ** A backtracking matcher for the regular expressions of the parser

    The matcher follows the continuation semantics of ECMAScript: greedy
    quantifiers try the longer match first and fall back to the
    continuation. A position is the suffix of the input still to be read. *)

Module Regex.

Inductive t : Type :=
| Empty
| Bos                          (* ^ *)
| Eos                          (* $ *)
| Class (p : ascii -> bool)    (* one character of a class *)
| Seq (r1 r2 : t)
| Opt (r : t)                  (* r? , greedy *)
| Star (r : t)                 (* r* , greedy *)
| Group (n : nat) (r : t).     (* the n-th capturing group *)

Definition Plus (r : t) : t := Seq r (Star r).

Fixpoint Times (n : nat) (r : t) : t :=
  match n with
  | O => Empty
  | S n' => Seq r (Times n' r)
  end.

Fixpoint chain (rs : list t) : t :=
  match rs with
  | [] => Empty
  | [r] => r
  | r :: rs' => Seq r (chain rs')
  end.

Abbreviation Captures := (gmap nat (list ascii)).
Definition Cont : Type := list ascii -> Captures -> option Captures.

(** The iterations of a greedy star. An iteration that consumes nothing is
    rejected, as RepeatMatcher does; [fuel] bounds the iterations by the
    length of what is left to read. *)
Fixpoint repeat_greedy (m : Cont -> Cont) (k : Cont) (fuel : nat)
    (s : list ascii) (c : Captures) : option Captures :=
  match fuel with
  | O => k s c
  | S fuel' =>
      match m (fun s' c' =>
                 if decide (length s' < length s)%nat
                 then repeat_greedy m k fuel' s' c' else None) s c with
      | Some res => Some res
      | None => k s c
      end
  end.

Fixpoint rmatch (input : list ascii) (r : t) (k : Cont)
    (s : list ascii) (c : Captures) : option Captures :=
  match r with
  | Empty => k s c
  | Bos => if decide (length s = length input) then k s c else None
  | Eos => match s with [] => k s c | _ :: _ => None end
  | Class p =>
      match s with
      | x :: s' => if p x then k s' c else None
      | [] => None
      end
  | Seq r1 r2 => rmatch input r1 (rmatch input r2 k) s c
  | Opt r1 =>
      match rmatch input r1 k s c with
      | Some res => Some res
      | None => k s c
      end
  | Star r1 => repeat_greedy (rmatch input r1) k (length s) s c
  | Group n r1 =>
      rmatch input r1
        (fun s' c' => k s' (<[n := take (length s - length s') s]> c')) s c
  end.

Definition accept : Cont := fun _ c => Some c.

(** [String.prototype.match] without the [g] flag: the first start
    position, from the left, at which the pattern matches. *)
Fixpoint exec_from (input : list ascii) (r : t) (s : list ascii)
    : option Captures :=
  match rmatch input r accept s ∅ with
  | Some c => Some c
  | None =>
      match s with
      | [] => None
      | _ :: s' => exec_from input r s'
      end
  end.

Definition exec (r : t) (input : list ascii) : option Captures :=
  exec_from input r input.

End Regex.

(** ** String helpers of the runtime *)

Definition chars (s : string) : list ascii := list_ascii_of_string s.
Definition str (l : list ascii) : string := string_of_list_ascii l.

Fixpoint trimStart (l : list ascii) : list ascii :=
  match l with
  | c :: l' => if Char.isSpace c then trimStart l' else l
  | [] => []
  end.

(** [String.prototype.trim] *)
Definition trim (l : list ascii) : list ascii :=
  rev (trimStart (rev (trimStart l))).

(** [Number(s)] on a string of decimal digits: the integer the digits
    write. A JavaScript number holds it exactly up to 2^53 - 1; a property
    over arbitrary digit strings carries that bound. *)
Definition Number_of_digits (l : list ascii) : Z :=
  fold_left (fun acc c => 10 * acc + (Z.of_N (Char.code c) - 48)) l 0.

(** The string of a non-negative integer, as a template literal prints it *)
Definition Number_toString (n : Z) : string :=
  NilZero.string_of_uint (N.to_uint (Z.to_N n)).

Definition toLowerCase (l : list ascii) : list ascii := map Char.toLowerCase l.

(** [String.prototype.split] on a one-character separator *)
Fixpoint split (sep : ascii) (l : list ascii) : list (list ascii) :=
  match l with
  | [] => [[]]
  | c :: l' =>
      if bool_decide (c = sep) then [] :: split sep l'
      else match split sep l' with
           | p :: ps => (c :: p) :: ps
           | [] => [[c]]
           end
  end.

(** ** The three patterns *)

Import Regex.

Definition ws : Regex.t := Class Char.isSpace.
Definition digit : Regex.t := Class Char.isDigit.
Definition dot : Regex.t := Class Char.isDot.
Definition lit (s : string) : Regex.t :=
  Regex.chain (map (fun p => Class (Char.isChar p)) (chars s)).

(** [/^in\s+(\d+)\s*([smhd])?\s+(.+)$/i] *)
Definition re_in : Regex.t :=
  Regex.chain
    [ Bos; lit "in"; Plus ws; Group 1 (Plus digit); Star ws;
      Opt (Group 2 (Class (Char.isOneOf (chars "smhd")))); Plus ws;
      Group 3 (Plus dot); Eos ].

(** [/^at\s+(\d{4}-\d{2}-\d{2})\s+(\d{1,2}):(\d{2})\s+(.+)$/i] *)
Definition re_at : Regex.t :=
  Regex.chain
    [ Bos; lit "at"; Plus ws;
      Group 1 (Regex.chain [Times 4 digit; lit "-"; Times 2 digit; lit "-";
                          Times 2 digit]);
      Plus ws; Group 2 (Seq digit (Opt digit)); lit ":";
      Group 3 (Times 2 digit); Plus ws; Group 4 (Plus dot); Eos ].

(** [/^tomorrow\s+(\d{1,2}):(\d{2})\s+(.+)$/i] *)
Definition re_tomorrow : Regex.t :=
  Regex.chain
    [ Bos; lit "tomorrow"; Plus ws; Group 1 (Seq digit (Opt digit)); lit ":";
      Group 2 (Times 2 digit); Plus ws; Group 3 (Plus dot); Eos ].

(** ** The host calendar: what [new Date(y, m, d, h, min, 0, 0)] and the
    getters compute (ECMAScript, Date objects) *)

Module Date.

Definition msPerDay : Z := 86400000.

(** Day number of a proleptic Gregorian date, month in 1..12; day 0 is
    1970-01-01. *)
Definition days_from_civil (y m d : Z) : Z :=
  let y' := if m <=? 2 then y - 1 else y in
  let era := y' / 400 in
  let yoe := y' - era * 400 in
  let mp := if m <=? 2 then m + 9 else m - 3 in
  let doy := (153 * mp + 2) / 5 + d - 1 in
  let doe := yoe * 365 + yoe / 4 - yoe / 100 + doy in
  era * 146097 + doe - 719468.

(** Year, month (1..12) and day of the month of a day number. *)
Definition civil_from_days (z : Z) : Z * Z * Z :=
  let z' := z + 719468 in
  let era := z' / 146097 in
  let doe := z' - era * 146097 in
  let yoe := (doe - doe / 1460 + doe / 36524 - doe / 146096) / 365 in
  let doy := doe - (365 * yoe + yoe / 4 - yoe / 100) in
  let mp := (5 * doy + 2) / 153 in
  let d := doy - (153 * mp + 2) / 5 + 1 in
  let m := if mp <? 10 then mp + 3 else mp - 9 in
  let y := yoe + era * 400 in
  (if m <=? 2 then y + 1 else y, m, d).

(** MakeDay(year, month, date): the month is zero-based and may overflow. *)
Definition MakeDay (year month date : Z) : Z :=
  days_from_civil (year + month / 12) (month mod 12 + 1) 1 + date - 1.

Definition MakeTime (h m s ms : Z) : Z :=
  h * 3600000 + m * 60000 + s * 1000 + ms.

Definition MakeDate (day time : Z) : Z := day * msPerDay + time.

(** [new Date(y, m, d, h, min, 0, 0).getTime()] in a host whose offset from
    UTC is [tza t isUTC]. A year from 0 to 99 means 1900 + year. *)
Definition make (tza : Z -> bool -> Z) (y m d h mi : Z) : Z :=
  let yr := if (0 <=? y) && (y <=? 99) then 1900 + y else y in
  let t := MakeDate (MakeDay yr m d) (MakeTime h mi 0 0) in
  t - tza t false.

Definition LocalTime (tza : Z -> bool -> Z) (t : Z) : Z := t + tza t true.

Definition getFullYear (tza : Z -> bool -> Z) (t : Z) : Z :=
  (civil_from_days (LocalTime tza t / msPerDay)).1.1.

(** zero-based *)
Definition getMonth (tza : Z -> bool -> Z) (t : Z) : Z :=
  (civil_from_days (LocalTime tza t / msPerDay)).1.2 - 1.

Definition getDate (tza : Z -> bool -> Z) (t : Z) : Z :=
  (civil_from_days (LocalTime tza t / msPerDay)).2.

(** A host on UTC. *)
Definition utc : Z -> bool -> Z := fun _ _ => 0.

End Date.

(** ** The JSON file behind the store: [readDB] on the raw medium *)

Module Raw.

(** A parsed JSON text. A number is the exact decimal [m * 10^e] of its
    literal, normalised ([e <= 0], and [m] not a multiple of ten when
    [e < 0]); rounding to a double is not modelled. A string is kept as
    the body of its literal, escapes validated and left as written. An
    object keeps its members in source order. *)
#[warnings="-register-all"] Inductive JSValue :=
| JNull
| JBool (b : bool)
| JNumber (m e : Z)
| JString (body : string)
| JArray (items : list JSValue)
| JObject (members : list (string * JSValue)).

(** The states of [reminders.json] *)
Inductive Medium :=
| Missing                      (* no such file *)
| Unreadable                   (* the file cannot be opened or decoded *)
| Content (raw : string).

Inductive Error := ENOENT | EACCES | SyntaxError.

Inductive Result (A : Type) :=
| Ok (a : A)
| Throw (e : Error).
Arguments Ok {A} a.
Arguments Throw {A} e.

Definition bind {A B} (r : Result A) (f : A -> Result B) : Result B :=
  match r with
  | Ok a => f a
  | Throw e => Throw e
  end.

(** [try { body } catch (e) { handler(e) }] *)
Definition try_catch {A} (body : Result A) (handler : Error -> Result A)
    : Result A :=
  match body with
  | Ok a => Ok a
  | Throw e => handler e
  end.

(** [fs.readFileSync(DB_FILE, 'utf8')] *)
Definition readFileSync (m : Medium) : Result string :=
  match m with
  | Missing => Throw ENOENT
  | Unreadable => Throw EACCES
  | Content raw => Ok raw
  end.

(** *** [JSON.parse], by recursive descent (ECMA-404) *)

Definition isJsonSpace (c : ascii) : bool :=
  match Char.code c with
  | 9 | 10 | 13 | 32 => true
  | _ => false
  end%N.

Fixpoint skip_ws (s : list ascii) : list ascii :=
  match s with
  | c :: s' => if isJsonSpace c then skip_ws s' else s
  | [] => []
  end.

Definition isHex (c : ascii) : bool :=
  Char.isDigit c
  || ((65 <=? Char.code c) && (Char.code c <=? 70))%N
  || ((97 <=? Char.code c) && (Char.code c <=? 102))%N.

(** The body of a string literal, after its opening quote: the body as
    written, and what follows the closing quote. *)
Fixpoint string_body (s : list ascii) : option (list ascii * list ascii) :=
  match s with
  | [] => None
  | "034"%char :: rest => Some ([], rest)
  | "\"%char :: e :: rest =>
      if bool_decide (e ∈ chars "\/bfnrt") || bool_decide (e = "034"%char)
      then '(b, r) ← string_body rest; Some ("\"%char :: e :: b, r)
      else if bool_decide (e = "u"%char) then
        match rest with
        | h1 :: h2 :: h3 :: h4 :: rest' =>
            if isHex h1 && isHex h2 && isHex h3 && isHex h4
            then '(b, r) ← string_body rest';
                 Some ("\"%char :: e :: h1 :: h2 :: h3 :: h4 :: b, r)
            else None
        | _ => None
        end
      else None
  | c :: rest =>
      if (Char.code c <? 32)%N || bool_decide (c = "\"%char) then None
      else '(b, r) ← string_body rest; Some (c :: b, r)
  end.

Fixpoint span_digits (s : list ascii) : list ascii * list ascii :=
  match s with
  | c :: s' =>
      if Char.isDigit c
      then let '(ds, r) := span_digits s' in (c :: ds, r)
      else ([], s)
  | [] => ([], [])
  end.

(** Strip the trailing zeros of a mantissa with a negative exponent. *)
Fixpoint normalise (fuel : nat) (m e : Z) : Z * Z :=
  match fuel with
  | O => (m, e)
  | S fuel' =>
      if (e <? 0) && (m mod 10 =? 0) then normalise fuel' (m / 10) (e + 1)
      else (m, e)
  end.

Definition decimal (neg : bool) (int frac : list ascii) (exp : Z) : JSValue :=
  let m := Number_of_digits (int ++ frac) in
  let e := exp - Z.of_nat (length frac) in
  let '(m', e') :=
    if m =? 0 then (0, 0)
    else if 0 <=? e then (m * 10 ^ e, 0)
    else normalise (Z.to_nat (- e)) m e in
  JNumber (if neg then - m' else m') e'.

(** A number literal: an optional minus sign, an integer part without a
    leading zero (or a single zero), an optional fraction of at least one
    digit, an optional exponent of at least one digit. *)
Definition number (s : list ascii) : option (JSValue * list ascii) :=
  let '(neg, s1) := match s with
                    | "-"%char :: r => (true, r)
                    | _ => (false, s)
                    end in
  let '(int, s2) := span_digits s1 in
  match int with
  | [] => None
  | d :: ds =>
      if bool_decide (d = "0"%char) && negb (bool_decide (ds = [])) then None
      else
        let frac_part :=
          match s2 with
          | "."%char :: r =>
              let '(fr, r') := span_digits r in
              match fr with [] => None | _ :: _ => Some (fr, r') end
          | _ => Some ([], s2)
          end in
        '(frac, s3) ← frac_part;
        match s3 with
        | x :: r =>
            if bool_decide (x = "e"%char) || bool_decide (x = "E"%char) then
              let '(eneg, r1) := match r with
                                 | "-"%char :: r' => (true, r')
                                 | "+"%char :: r' => (false, r')
                                 | _ => (false, r)
                                 end in
              let '(ex, r2) := span_digits r1 in
              match ex with
              | [] => None
              | _ :: _ =>
                  let n := Number_of_digits ex in
                  Some (decimal neg int frac (if eneg then - n else n), r2)
              end
            else Some (decimal neg int frac 0, s3)
        | [] => Some (decimal neg int frac 0, s3)
        end
  end.

(** A value, and what follows it. Every recursive call reads a strictly
    shorter text, so [fuel] above the length of the text never runs out. *)
Fixpoint value (fuel : nat) (s : list ascii) : option (JSValue * list ascii) :=
  match fuel with
  | O => None
  | S fuel' =>
      match skip_ws s with
      | "n"%char :: "u"%char :: "l"%char :: "l"%char :: r => Some (JNull, r)
      | "t"%char :: "r"%char :: "u"%char :: "e"%char :: r =>
          Some (JBool true, r)
      | "f"%char :: "a"%char :: "l"%char :: "s"%char :: "e"%char :: r =>
          Some (JBool false, r)
      | "034"%char :: r => '(b, r') ← string_body r; Some (JString (str b), r')
      | "["%char :: r =>
          match skip_ws r with
          | "]"%char :: r' => Some (JArray [], r')
          | _ =>
              (fix elements (n : nat) (s : list ascii)
                 : option (list JSValue * list ascii) :=
                 match n with
                 | O => None
                 | S n' =>
                     '(v, s1) ← value fuel' s;
                     match skip_ws s1 with
                     | ","%char :: s2 =>
                         '(vs, s3) ← elements n' s2; Some (v :: vs, s3)
                     | "]"%char :: s2 => Some ([v], s2)
                     | _ => None
                     end
                 end) fuel' r
              ≫= fun '(vs, r') => Some (JArray vs, r')
          end
      | "{"%char :: r =>
          match skip_ws r with
          | "}"%char :: r' => Some (JObject [], r')
          | _ =>
              (fix members (n : nat) (s : list ascii)
                 : option (list (string * JSValue) * list ascii) :=
                 match n with
                 | O => None
                 | S n' =>
                     match skip_ws s with
                     | "034"%char :: s0 =>
                         '(key, s1) ← string_body s0;
                         match skip_ws s1 with
                         | ":"%char :: s2 =>
                             '(v, s3) ← value fuel' s2;
                             match skip_ws s3 with
                             | ","%char :: s4 =>
                                 '(ms, s5) ← members n' s4;
                                 Some ((str key, v) :: ms, s5)
                             | "}"%char :: s4 => Some ([(str key, v)], s4)
                             | _ => None
                             end
                         | _ => None
                         end
                     | _ => None
                     end
                 end) fuel' r
              ≫= fun '(ms, r') => Some (JObject ms, r')
          end
      | c :: _ =>
          if bool_decide (c = "-"%char) || Char.isDigit c
          then number (skip_ws s) else None
      | [] => None
      end
  end.

(** [JSON.parse(raw)]: one value, surrounded by white space only. *)
Definition JSON_parse (raw : string) : Result JSValue :=
  match value (S (length (chars raw))) (chars raw) with
  | Some (v, rest) =>
      match skip_ws rest with
      | [] => Ok v
      | _ :: _ => Throw SyntaxError
      end
  | None => Throw SyntaxError
  end.

(** [{ lastId: 0, reminders: [] }] *)
Definition emptyDB : JSValue :=
  JObject [("lastId"%string, JNumber 0 0); ("reminders"%string, JArray [])].

Definition readDB (m : Medium) : Result JSValue :=
  try_catch
    (bind (readFileSync m) (fun raw => JSON_parse raw))
    (fun e => Ok emptyDB).

(** The last member of an object with a given key, as property lookup
    finds it after [JSON.parse]. *)
Definition member (key : string) (v : JSValue) : option JSValue :=
  match v with
  | JObject ms => snd <$> last (filter (fun kv => kv.1 = key) ms)
  | _ => None
  end.

(** A store record: an object with a number [lastId] and an array
    [reminders]. *)
Definition isStoreRecord (v : JSValue) : bool :=
  match member "lastId" v, member "reminders" v with
  | Some (JNumber _ _), Some (JArray _) => true
  | _, _ => false
  end.

End Raw.

(** ** Data model *)

Inductive Status := pending | sent | deleted.

#[global] Instance Status_eq_dec : EqDecision Status.
Proof. solve_decision. Defined.

Module Reminder.
Record t := mk {
  id : Z;
  chatId : Z;
  userId : option Z;
  text : string;
  dueAt : Z;
  createdAt : Z;
  status : Status;
  how : string;
  sentAt : option Z;
  deletedAt : option Z
}.

(** [r.status = 'sent'; r.sentAt = t] *)
Definition markSent (t : Z) (r : Reminder.t) : Reminder.t :=
  mk (id r) (chatId r) (userId r) (text r) (dueAt r) (createdAt r)
     sent (how r) (Some t) (deletedAt r).

(** [r.status = 'deleted'; r.deletedAt = t] *)
Definition markDeleted (t : Z) (r : Reminder.t) : Reminder.t :=
  mk (id r) (chatId r) (userId r) (text r) (dueAt r) (createdAt r)
     deleted (how r) (sentAt r) (Some t).
End Reminder.

Record Store := { lastId : Z; reminders : list Reminder.t }.

(** [{ lastId: 0, reminders: [] }] *)
Definition emptyDB : Store := {| lastId := 0; reminders := [] |}.

(** What a parser returns on a match. *)
Module Parsed.
Record t := mk { dueAt : Z; text : string; how : string }.
End Parsed.

(** A [sendMessage] request of the scheduler: the chat, the user to mention
    (when [r.userId] is truthy) and the reminder text the message carries. *)
Record Message := { to : Z; mention : option Z; body : string }.

(** ** The environment and the monad of the handlers *)

Record World := {
  clock : nat -> Z;               (* the successive readings of Date.now() *)
  reads : nat;                    (* how many have been taken *)
  localTZA : Z -> bool -> Z;      (* the host's offset from UTC *)
  network : nat -> bool;          (* does the n-th sendMessage resolve? *)
  outbox : list (Message * bool); (* the sendMessage calls, with outcomes *)
  disk : option Store;            (* the store reminders.json holds, if any *)
  writes : nat                    (* the writeFileSync calls made *)
}.

Definition M (A : Type) : Type := World -> A * World.

#[global] Instance M_ret : MRet M := fun A a w => (a, w).
#[global] Instance M_bind : MBind M :=
  fun A B f m w => let '(a, w') := m w in f a w'.

(** [Date.now()], and the reading [new Date()] takes *)
Definition Date_now : M Z := fun w =>
  (clock w (reads w),
   {| clock := clock w; reads := S (reads w); localTZA := localTZA w;
      network := network w; outbox := outbox w; disk := disk w;
      writes := writes w |}).

Definition host : M (Z -> bool -> Z) := fun w => (localTZA w, w).

(** [await bot.api.sendMessage(...)] inside [try]: [true] when it resolves,
    [false] when it throws. *)
Definition sendMessage (msg : Message) : M bool := fun w =>
  let ok := network w (length (outbox w)) in
  (ok,
   {| clock := clock w; reads := reads w; localTZA := localTZA w;
      network := network w; outbox := outbox w ++ [(msg, ok)];
      disk := disk w; writes := writes w |}).

(** [readDB] on a disk that holds a store or nothing readable (the reading,
    parsing and fallback on the text of the file are [Raw.readDB]); a file
    written by [writeDB] reads back as the store that was written. *)
Definition readDB : M Store := fun w =>
  (match disk w with Some db => db | None => emptyDB end, w).

(** [writeDB(db)]: the file then holds [db]. The write is taken to succeed;
    every call is counted. *)
Definition writeDB (db : Store) : M unit := fun w =>
  (tt,
   {| clock := clock w; reads := reads w; localTZA := localTZA w;
      network := network w; outbox := outbox w; disk := Some db;
      writes := S (writes w) |}).

(** ** Parsing helpers *)

Definition group (m : Captures) (n : nat) : list ascii := default [] (m !! n).

Definition multipliers : gmap string Z :=
  {[ "s" := 1000; "m" := 60000; "h" := 3600000; "d" := 86400000 ]}%string.

Definition parseInSyntax (input : string) : M (option Parsed.t) :=
  match Regex.exec re_in (chars input) with
  | None => mret None
  | Some m =>
      let amount := Number_of_digits (group m 1) in
      let unit := toLowerCase (match m !! 2%nat with
                               | Some (c :: u) => c :: u
                               | _ => chars "m"
                               end) in
      let text := trim (group m 3) in
      let ms := amount * default 60000 (multipliers !! str unit) in
      now ← Date_now;
      mret (Some (Parsed.mk (now + ms) (str text)
                    ("in " ++ Number_toString amount ++ str unit)%string))
  end.

Definition parseAtSyntax (input : string) : M (option Parsed.t) :=
  match Regex.exec re_at (chars input) with
  | None => mret None
  | Some m =>
      let dateStr := group m 1 in
      let hh := group m 2 in
      let mm := group m 3 in
      let parts := map Number_of_digits (split "-" dateStr) in
      let y := parts !!! 0%nat in
      let mo := parts !!! 1%nat in
      let d := parts !!! 2%nat in
      let text := trim (group m 4) in
      tza ← host;
      let due := Date.make tza y (mo - 1) d
                   (Number_of_digits hh) (Number_of_digits mm) in
      mret (Some (Parsed.mk due (str text)
                    ("at " ++ str dateStr ++ " " ++ str hh ++ ":" ++ str mm)%string))
  end.

Definition parseTomorrowSyntax (input : string) : M (option Parsed.t) :=
  match Regex.exec re_tomorrow (chars input) with
  | None => mret None
  | Some m =>
      let hh := group m 1 in
      let mm := group m 2 in
      now ← Date_now;
      tza ← host;
      let due := Date.make tza (Date.getFullYear tza now) (Date.getMonth tza now)
                   (Date.getDate tza now + 1)
                   (Number_of_digits hh) (Number_of_digits mm) in
      let text := trim (group m 3) in
      mret (Some (Parsed.mk due (str text)
                    ("tomorrow " ++ str hh ++ ":" ++ str mm)%string))
  end.

(** [a || b] on parser results: [null] is the only falsy one. *)
Definition orElse {A} (a b : M (option A)) : M (option A) :=
  r ← a; match r with Some x => mret (Some x) | None => b end.

Definition parseWhenAndText (input : string) : M (option Parsed.t) :=
  orElse (parseInSyntax input)
    (orElse (parseAtSyntax input) (parseTomorrowSyntax input)).

(** ** The command handlers and the scheduler *)

Inductive Reply :=
| Usage                                   (* Please provide details *)
| CouldntParse                            (* Couldn't parse that *)
| MissingText                             (* Missing reminder text *)
| PastDue                                 (* That time is in the past *)
| Created (id : Z) (dueAt : Z) (text : string)
| NoPending                               (* No pending reminders *)
| PendingList (items : list Reminder.t)
| DeleteUsage                             (* Usage: /delete <id> *)
| NotFound
| Deleted (id : Z).

(** The body of the [remind] handler from the parse on (lines 158-190):
    [arg] is the text the handler parses. *)
Definition create (chat : Z) (user : option Z) (arg : string) : M Reply :=
  parsed ← parseWhenAndText arg;
  match parsed with
  | None => mret CouldntParse
  | Some p =>
      if bool_decide (Parsed.text p = EmptyString) then mret MissingText else
      t ← Date_now;
      if Parsed.dueAt p <=? t then mret PastDue else
      db ← readDB;
      let id := lastId db + 1 in
      created ← Date_now;
      let reminder :=
        Reminder.mk id chat user (Parsed.text p) (Parsed.dueAt p) created
          pending (Parsed.how p) None None in
      writeDB {| lastId := id; reminders := reminders db ++ [reminder] |};;
      mret (Created id (Parsed.dueAt p) (Parsed.text p))
  end.

(** [bot.command('remind', ...)]: [matched] is [ctx.match]. *)
Definition cmd_remind (chat : Z) (user : option Z) (matched : string)
    : M Reply :=
  let arg := str (trim (chars matched)) in
  if bool_decide (arg = EmptyString) then mret Usage
  else create chat user arg.

(** The comparator [(a, b) => a.dueAt - b.dueAt] *)
Definition byDueAt (a b : Reminder.t) : Z :=
  Reminder.dueAt a - Reminder.dueAt b.

(** [Array.prototype.sort] with a comparator: a stable sort, here by
    insertion; [x] goes before the first element it does not exceed. *)
Fixpoint insert_by {A} (cmp : A -> A -> Z) (x : A) (l : list A) : list A :=
  match l with
  | [] => [x]
  | y :: l' => if cmp x y <=? 0 then x :: y :: l' else y :: insert_by cmp x l'
  end.

Definition Array_sort {A} (cmp : A -> A -> Z) (l : list A) : list A :=
  foldr (insert_by cmp) [] l.

(** [bot.command('list', ...)] *)
Definition cmd_list (chat : Z) : M Reply :=
  db ← readDB;
  let items :=
    Array_sort byDueAt
      (filter (fun r => Reminder.chatId r = chat ∧ Reminder.status r = pending)
         (reminders db)) in
  match items with
  | [] => mret NoPending
  | _ :: _ => mret (PendingList items)
  end.

(** [bot.command('delete', ...)] for an argument that [Number] reads as the
    integer [id]; zero is falsy. [find] returns a reference into
    [db.reminders], here its index. [delete_handler] below takes any
    [Number(arg)]. *)
Definition cmd_delete (chat : Z) (id : Z) : M Reply :=
  if id =? 0 then mret DeleteUsage else
  db ← readDB;
  match list_find (fun x => Reminder.id x = id ∧ Reminder.chatId x = chat)
          (reminders db) with
  | None => mret NotFound
  | Some (i, r) =>
      t ← Date_now;
      writeDB {| lastId := lastId db;
                 reminders := <[i := Reminder.markDeleted t r]> (reminders db) |};;
      mret (Deleted id)
  end.

(** What [Number(arg)] can be: [NaN] when the argument is no numeric
    literal, an integer, or a number that is not an integer (or is
    infinite), which is [===] to no [id] of the store. *)
Inductive Numeric :=
| NaN
| Integer (n : Z)
| NotInteger.

(** [bot.command('delete', ...)] from [const id = Number(arg)] on: [NaN],
    like zero, is falsy; a number that is not an integer is truthy and
    [find] finds nothing. *)
Definition delete_handler (chat : Z) (id : Numeric) : M Reply :=
  match id with
  | NaN => mret DeleteUsage
  | Integer n => cmd_delete chat n
  | NotInteger => readDB;; mret NotFound
  end.

(** The selection of the scheduler: [r.status === 'pending' && r.dueAt <= now] *)
Definition isDue (now : Z) (r : Reminder.t) : Prop :=
  Reminder.status r = pending ∧ Reminder.dueAt r <= now.

#[global] Instance isDue_dec now r : Decision (isDue now r).
Proof. unfold isDue. apply _. Defined.

(** [Array.prototype.filter] returns references to the objects of the array:
    the positions, from [i] on, of the elements that satisfy [P]. *)
Fixpoint refs_from {A} (P : A -> Prop) `{!∀ x, Decision (P x)}
    (i : nat) (l : list A) : list nat :=
  match l with
  | [] => []
  | x :: l' =>
      if decide (P x) then i :: refs_from P (S i) l' else refs_from P (S i) l'
  end.

Definition render (r : Reminder.t) : Message :=
  {| to := Reminder.chatId r;
     mention := match Reminder.userId r with
                | Some u => if u =? 0 then None else Some u
                | None => None
                end;
     body := Reminder.text r |}.

(** One turn of the [for] loop of [tick], on the object [i] refers to. *)
Definition attempt (rs : list Reminder.t) (i : nat) : M (list Reminder.t) :=
  match rs !! i with
  | None => mret rs
  | Some r =>
      ok ← sendMessage (render r);
      if ok : bool then
        t ← Date_now;
        mret (<[i := Reminder.markSent t r]> rs)
      else mret rs
  end.

Fixpoint forEach (due : list nat) (rs : list Reminder.t)
    : M (list Reminder.t) :=
  match due with
  | [] => mret rs
  | i :: due' => rs' ← attempt rs i; forEach due' rs'
  end.

Definition tick : M unit :=
  now ← Date_now;
  db ← readDB;
  let due := refs_from (isDue now) 0 (reminders db) in
  rs ← forEach due (reminders db);
  match due with
  | [] => mret tt
  | _ :: _ => writeDB {| lastId := lastId db; reminders := rs |}
  end.

(** ** The scheduler and the handlers in one process

    [tick] awaits every [sendMessage]; while it waits, the handlers of the
    updates that arrive run, each up to its own reply, which comes after
    its [writeDB]. [tick] holds the [db] object it read at its start. *)

Inductive Update :=
| OnRemind (chat : Z) (user : option Z) (matched : string)
| OnList (chat : Z)
| OnDelete (chat : Z) (id : Z).

Definition handle (u : Update) : M Reply :=
  match u with
  | OnRemind chat user matched => cmd_remind chat user matched
  | OnList chat => cmd_list chat
  | OnDelete chat id => cmd_delete chat id
  end.

Fixpoint handle_all (us : list Update) : M unit :=
  match us with
  | [] => mret tt
  | u :: us' => handle u;; handle_all us'
  end.

(** One turn of the loop, with the updates handled while its send is
    awaited. *)
Definition attempt_during (us : list Update) (rs : list Reminder.t) (i : nat)
    : M (list Reminder.t) :=
  match rs !! i with
  | None => mret rs
  | Some r =>
      ok ← sendMessage (render r);
      handle_all us;;
      if ok : bool then
        t ← Date_now;
        mret (<[i := Reminder.markSent t r]> rs)
      else mret rs
  end.

(** [gaps k] are the updates handled during the [k]-th send of the pass. *)
Fixpoint forEach_during (gaps : nat -> list Update) (k : nat) (due : list nat)
    (rs : list Reminder.t) : M (list Reminder.t) :=
  match due with
  | [] => mret rs
  | i :: due' =>
      rs' ← attempt_during (gaps k) rs i;
      forEach_during gaps (S k) due' rs'
  end.

Definition tick_during (gaps : nat -> list Update) : M unit :=
  now ← Date_now;
  db ← readDB;
  let due := refs_from (isDue now) 0 (reminders db) in
  rs ← forEach_during gaps 0 due (reminders db);
  match due with
  | [] => mret tt
  | _ :: _ => writeDB {| lastId := lastId db; reminders := rs |}
  end.

(** A reminder as the pass that read it may leave it. *)
Definition kept_or_sent (r r' : Reminder.t) : Prop :=
  r' = r ∨ exists t, r' = Reminder.markSent t r.

(** ** [writeDB] on the text of the file

    [JSON.stringify(db, null, 2)] on a store as the handlers build it: an
    object with [lastId] and [reminders], every reminder an object with its
    properties in the order of their creation, a property that is
    [undefined] left out. *)














(** ** [readDB] on the text of the file

    What the handlers see of the value [JSON.parse] returns: a property is
    read by its key, a number is an id or a time when it is an integer, a
    string literal stands for the code units its escapes denote. *)








(** * Vocabulary of the properties *)

(** ** Worlds to run examples in: the clock advances one millisecond per
    reading from 2025-08-12 12:00 UTC. *)

(** No file yet, every send resolves. *)
Definition initial : World :=
  {| clock := fun n => 1755000000000 + Z.of_nat n; reads := 0;
     localTZA := Date.utc; network := fun _ => true; outbox := [];
     disk := None; writes := 0 |}.

(** One pending reminder that is due, and a transport that always fails. *)
Definition stalled : World :=
  {| clock := fun n => 1755000000000 + Z.of_nat n; reads := 0;
     localTZA := Date.utc; network := fun _ => false; outbox := [];
     disk := Some {| lastId := 1;
                     reminders := [Reminder.mk 1 7 None "x" 1754999999000
                                     1754999990000 pending "in 9s" None None] |};
     writes := 0 |}.

(** One reminder that was sent. *)
Definition archived : World :=
  {| clock := fun n => 1755000000000 + Z.of_nat n; reads := 0;
     localTZA := Date.utc; network := fun _ => true; outbox := [];
     disk := Some {| lastId := 1;
                     reminders := [Reminder.mk 1 7 None "x" 1754999999000
                                     1754999990000 sent "in 9s"
                                     (Some 1754999999500) None] |};
     writes := 0 |}.

(** Three pending reminders of two chats, out of due order. *)
Definition crowded : World :=
  {| clock := fun n => 1755000000000 + Z.of_nat n; reads := 0;
     localTZA := Date.utc; network := fun _ => true; outbox := [];
     disk := Some {| lastId := 3;
                     reminders :=
                       [Reminder.mk 1 7 None "late" 1755000900000
                          1754999990000 pending "in 15m" None None;
                        Reminder.mk 2 8 None "other" 1755000100000
                          1754999990000 pending "in 2m" None None;
                        Reminder.mk 3 7 None "soon" 1755000300000
                          1754999990000 pending "in 5m" None None] |};
     writes := 0 |}.

(** Two pending reminders that are due, and a transport that fails on the
    first call only. *)
Definition flaky : World :=
  {| clock := fun n => 1755000000000 + Z.of_nat n; reads := 0;
     localTZA := Date.utc; network := fun n => negb (n =? 0)%nat;
     outbox := [];
     disk := Some {| lastId := 2;
                     reminders :=
                       [Reminder.mk 1 7 None "x" 1754999999000
                          1754999990000 pending "in 9s" None None;
                        Reminder.mk 2 8 (Some 42) "y" 1754999999500
                          1754999990000 pending "in 9s" None None] |};
     writes := 0 |}.

(** ** The matcher on a run of characters *)

(** [s] does not start with a character of the class. *)
Definition stops (p : ascii -> bool) (s : list ascii) : Prop :=
  match s with
  | [] => True
  | y :: _ => p y = false
  end.

(** The positions a greedy star falls back through: after all of [xs],
    then one character less, down to none of it. *)
Fixpoint backoff (k : Regex.Cont) (xs rest : list ascii) (c : Captures)
    : option Captures :=
  match xs with
  | [] => k rest c
  | x :: xs' =>
      match backoff k xs' rest c with
      | Some res => Some res
      | None => k (x :: xs' ++ rest) c
      end
  end.

(** ** The store and the loop of the scheduler *)

(** The store a handler reads from the disk of a world. *)
Definition stored (w : World) : Store := (readDB w).1.

(** What a handler cannot change in the environment. *)
Definition same_env (w w' : World) : Prop :=
  clock w' = clock w ∧ network w' = network w ∧ localTZA w' = localTZA w.

(** One turn of the loop of [tick], seen from the object it works on. *)
Definition deliver (r : Reminder.t) : M Reminder.t :=
  ok ← sendMessage (render r);
  if ok : bool then t ← Date_now; mret (Reminder.markSent t r) else mret r.

(** What [tick] does to one object of the array. *)
Definition turn (now : Z) (r : Reminder.t) : M Reminder.t :=
  if decide (isDue now r) then deliver r else mret r.

(** The loop of [tick], seen from the array: every due object is delivered
    in array order, the others are passed by. [forEach_sweep] shows that the
    loop over references computes this. *)
Fixpoint sweep (now : Z) (l : list Reminder.t) : M (list Reminder.t) :=
  match l with
  | [] => mret []
  | r :: l' =>
      r' ← (if decide (isDue now r) then deliver r else mret r);
      l'' ← sweep now l';
      mret (r' :: l'')
  end.

(** The [sendMessage] calls for a list of reminders and their outcomes, the
    first of them being the [n]-th call of the process. *)
Fixpoint attempts_from (net : nat -> bool) (n : nat) (rs : list Reminder.t)
    : list (Message * bool) :=
  match rs with
  | [] => []
  | r :: rs' => (render r, net n) :: attempts_from net (S n) rs'
  end.

(** ** Listing *)

Definition dueOrder (a b : Reminder.t) : Prop :=
  Reminder.dueAt a <= Reminder.dueAt b.

(** The items a reply of [/list] shows. *)
Definition listed (rep : Reply) : list Reminder.t :=
  match rep with
  | PendingList items => items
  | _ => []
  end.

(** ** Sequences of operations *)

Inductive Command :=
| Remind (chat : Z) (user : option Z) (matched : string)
| ListPending (chat : Z)
| Delete (chat : Z) (id : Z)
| Tick.

Definition step (c : Command) : M (option Reply) :=
  match c with
  | Remind chat user matched =>
      rep ← cmd_remind chat user matched; mret (Some rep)
  | ListPending chat => rep ← cmd_list chat; mret (Some rep)
  | Delete chat id => rep ← cmd_delete chat id; mret (Some rep)
  | Tick => tick;; mret None
  end.

Fixpoint run (cs : list Command) : M (list (option Reply)) :=
  match cs with
  | [] => mret []
  | c :: cs' => rep ← step c; reps ← run cs'; mret (rep :: reps)
  end.

(** The id a successful [create] assigned. *)
Definition created_id (rep : option Reply) : option Z :=
  match rep with
  | Some (Created id _ _) => Some id
  | _ => None
  end.

(** The ids assigned in a run, in the order of the calls. *)
Definition created (reps : list (option Reply)) : list Z :=
  omap created_id reps.

(** The ids of the store are 1, 2, ... in array order and [lastId] is the
    last of them. *)
Definition dense (db : Store) : Prop :=
  Reminder.id <$> reminders db = Z.of_nat <$> seq 1 (length (reminders db))
  ∧ lastId db = Z.of_nat (length (reminders db)).

(** ** Records over time *)

(** The fields of a reminder that no handler assigns after creation. *)
Definition same_record (r r' : Reminder.t) : Prop :=
  Reminder.id r' = Reminder.id r
  ∧ Reminder.chatId r' = Reminder.chatId r
  ∧ Reminder.userId r' = Reminder.userId r
  ∧ Reminder.text r' = Reminder.text r
  ∧ Reminder.dueAt r' = Reminder.dueAt r
  ∧ Reminder.createdAt r' = Reminder.createdAt r
  ∧ Reminder.how r' = Reminder.how r.

(** The stamps that go with a status. *)
Definition stamped (r : Reminder.t) : Prop :=
  match Reminder.status r with
  | pending => Reminder.sentAt r = None ∧ Reminder.deletedAt r = None
  | sent => is_Some (Reminder.sentAt r) ∧ Reminder.deletedAt r = None
  | deleted => is_Some (Reminder.deletedAt r)
  end.

(** The [sendMessage] calls that resolved. *)
Definition delivered (box : list (Message * bool)) : nat :=
  length (filter (fun e => e.2 = true) box).

(** The reminders that carry a [sentAt]. *)
Definition sent_stamps (rs : list Reminder.t) : nat :=
  length (filter (fun r => is_Some (Reminder.sentAt r)) rs).

(** What a handler or the scheduler can do to one stored reminder. *)
Definition evolves (r r' : Reminder.t) : Prop :=
  r' = r
  ∨ (Reminder.status r = pending ∧ exists t, r' = Reminder.markSent t r)
  ∨ exists t, r' = Reminder.markDeleted t r.

(** A reminder as [create] stores it. *)
Definition fresh (r : Reminder.t) : Prop :=
  Reminder.status r = pending ∧ Reminder.sentAt r = None
  ∧ Reminder.deletedAt r = None.

(** ** Reading the written text *)

(** The value [Raw.JSON_parse] makes of the text of a store (an integer
    [n] is [JNumber n 0], a string is the body of its literal). *)






(** The two loops of [Raw.value], on their own: [value'] reads one value. *)
Definition elements (value' : list ascii -> option (Raw.JSValue * list ascii))
    : nat -> list ascii -> option (list Raw.JSValue * list ascii) :=
  fix elements (n : nat) (s : list ascii) :=
    match n with
    | O => None
    | S n' =>
        '(v, s1) ← value' s;
        match Raw.skip_ws s1 with
        | ","%char :: s2 => '(vs, s3) ← elements n' s2; Some (v :: vs, s3)
        | "]"%char :: s2 => Some ([v], s2)
        | _ => None
        end
    end.

Definition members (value' : list ascii -> option (Raw.JSValue * list ascii))
    : nat -> list ascii
      -> option (list (string * Raw.JSValue) * list ascii) :=
  fix members (n : nat) (s : list ascii) :=
    match n with
    | O => None
    | S n' =>
        match Raw.skip_ws s with
        | "034"%char :: s0 =>
            '(key, s1) ← Raw.string_body s0;
            match Raw.skip_ws s1 with
            | ":"%char :: s2 =>
                '(v, s3) ← value' s2;
                match Raw.skip_ws s3 with
                | ","%char :: s4 =>
                    '(ms, s5) ← members n' s4;
                    Some ((str key, v) :: ms, s5)
                | "}"%char :: s4 => Some ([(str key, v)], s4)
                | _ => None
                end
            | _ => None
            end
        | _ => None
        end
    end.









Ltac munfold := unfold mbind, mret, M_bind, M_ret.

(** * Properties *)

(** ** How the matcher runs on a run of characters of one class *)

Section Matcher.

Variable input : list ascii.
Implicit Types (k : Regex.Cont) (s xs rest : list ascii) (c : Captures).

Lemma rmatch_class_stops p k s c :
  stops p s -> rmatch input (Class p) k s c = None.
Proof. destruct s as [|y s]; simpl; [done|]. by intros ->. Qed.

Lemma repeat_greedy_class p k fuel xs rest c :
  Forall (fun x => p x = true) xs -> stops p rest ->
  (length xs <= fuel)%nat ->
  repeat_greedy (rmatch input (Class p)) k fuel (xs ++ rest) c
  = backoff k xs rest c.
Proof.
  intros Hxs Hrest. revert fuel.
  induction Hxs as [|x xs Hx Hxs IH]; intros fuel Hfuel.
  - destruct fuel as [|fuel]; simpl; [done|].
    destruct rest as [|y rest]; simpl in *; [done|]. by rewrite Hrest.
  - destruct fuel as [|fuel]; simpl in Hfuel; [lia|].
    simpl. rewrite Hx.
    rewrite decide_True by (simpl; lia).
    rewrite IH by lia. done.
Qed.

Lemma rmatch_star_class p k xs rest c :
  Forall (fun x => p x = true) xs -> stops p rest ->
  rmatch input (Star (Class p)) k (xs ++ rest) c = backoff k xs rest c.
Proof.
  intros. simpl. apply repeat_greedy_class; auto. rewrite length_app. lia.
Qed.

Lemma rmatch_plus_class p k x xs rest c :
  p x = true -> Forall (fun x => p x = true) xs -> stops p rest ->
  rmatch input (Plus (Class p)) k (x :: xs ++ rest) c = backoff k xs rest c.
Proof.
  intros Hx Hxs Hrest. unfold Plus.
  change (rmatch input (Seq (Class p) (Star (Class p))) k (x :: xs ++ rest) c)
    with (if p x then rmatch input (Star (Class p)) k (xs ++ rest) c else None).
  rewrite Hx. by apply rmatch_star_class.
Qed.

Lemma rmatch_plus_stops p k s c :
  stops p s -> rmatch input (Plus (Class p)) k s c = None.
Proof.
  intros H. unfold Plus.
  change (rmatch input (Class p) (rmatch input (Star (Class p)) k) s c = None).
  by apply rmatch_class_stops.
Qed.

Lemma backoff_rest k xs rest c res :
  k rest c = Some res -> backoff k xs rest c = Some res.
Proof. intros H. induction xs as [|x xs IH]; simpl; [done|]. by rewrite IH. Qed.

Lemma backoff_snoc k xs y rest c :
  backoff k (xs ++ [y]) rest c
  = match k rest c with
    | Some res => Some res
    | None => backoff k xs (y :: rest) c
    end.
Proof.
  induction xs as [|x xs IH]; simpl; [done|].
  rewrite IH. destruct (k rest c); [done|].
  by rewrite <- app_assoc.
Qed.

Lemma backoff_None k xs rest c :
  (forall ys, ys `suffix_of` xs -> k (ys ++ rest) c = None) ->
  backoff k xs rest c = None.
Proof.
  induction xs as [|x xs IH]; intros H; simpl.
  - by apply (H []).
  - rewrite IH.
    + by apply (H (x :: xs)).
    + intros ys Hys. apply H. by apply suffix_cons_r.
Qed.

(** A pattern anchored by [^] matches at the start of the input or not at
    all. *)
Lemma exec_from_anchored r s :
  (length s < length input)%nat ->
  Regex.exec_from input (Seq Bos r) s = None.
Proof.
  induction s as [|x s IH]; intros Hlen; simpl.
  - rewrite decide_False by (simpl in *; lia). done.
  - rewrite decide_False by (simpl in *; lia).
    apply IH. simpl in Hlen. lia.
Qed.

End Matcher.

Lemma exec_anchored r input :
  Regex.exec (Seq Bos r) input = rmatch input r Regex.accept input ∅.
Proof.
  unfold Regex.exec.
  destruct input as [|x s]; cbn [Regex.exec_from rmatch];
    (case_decide; [|done]).
  - by destruct (rmatch _ _ _ _ _).
  - destruct (rmatch _ _ _ _ _); [done|].
    apply exec_from_anchored. simpl. lia.
Qed.

(** ** Facts on the character classes *)

Lemma digit_not_space c : Char.isDigit c = true -> Char.isSpace c = false.
Proof. destruct c as [[] [] [] [] [] [] [] []]; vm_compute; congruence. Qed.

Lemma space_not_digit c : Char.isSpace c = true -> Char.isDigit c = false.
Proof. destruct c as [[] [] [] [] [] [] [] []]; vm_compute; congruence. Qed.

Lemma space_not_unit c :
  Char.isSpace c = true -> Char.isOneOf (chars "smhd") c = false.
Proof. destruct c as [[] [] [] [] [] [] [] []]; vm_compute; congruence. Qed.

Lemma digit_not_unit c :
  Char.isDigit c = true -> Char.isOneOf (chars "smhd") c = false.
Proof. destruct c as [[] [] [] [] [] [] [] []]; vm_compute; congruence. Qed.

Lemma suffix_head_Forall {A} (P : A -> Prop) z zs xs :
  Forall P xs -> (z :: zs) `suffix_of` xs -> P z.
Proof. intros H [pre ->]. apply Forall_app in H as [_ H]. by inversion H. Qed.

Lemma chars_str l : chars (str l) = l.
Proof. apply list_ascii_of_string_of_list_ascii. Qed.

(** ** Single steps of the matcher *)

Section Steps.
Variable input : list ascii.
Implicit Types (k : Regex.Cont) (s : list ascii) (c : Captures).

Lemma rmatch_Seq r1 r2 k s c :
  rmatch input (Seq r1 r2) k s c = rmatch input r1 (rmatch input r2 k) s c.
Proof. done. Qed.

Lemma rmatch_class_true p k x s c :
  p x = true -> rmatch input (Class p) k (x :: s) c = k s c.
Proof. simpl. by intros ->. Qed.

Lemma rmatch_Opt_skip r k s c :
  rmatch input r k s c = None -> rmatch input (Opt r) k s c = k s c.
Proof. simpl. by intros ->. Qed.

Lemma rmatch_Group n r k s c :
  rmatch input (Group n r) k s c
  = rmatch input r
      (fun s' c' => k s' (<[n := take (length s - length s') s]> c')) s c.
Proof. done. Qed.

Lemma rmatch_Eos_nil k c : rmatch input Eos k [] c = k [] c.
Proof. done. Qed.
End Steps.

Lemma take_run {A} (xs rest : list A) :
  take (length (xs ++ rest) - length rest) (xs ++ rest) = xs.
Proof.
  rewrite length_app.
  replace (length xs + length rest - length rest)%nat with (length xs) by lia.
  by rewrite take_app_length.
Qed.

(** What follows the amount in the relative pattern cannot start at a
    character that is neither white space nor a unit letter. *)
Lemma unit_tail_stops input r k s c :
  stops Char.isSpace s -> stops (Char.isOneOf (chars "smhd")) s ->
  rmatch input
    (Seq (Opt (Group 2 (Class (Char.isOneOf (chars "smhd")))))
       (Seq (Plus (Class Char.isSpace)) r)) k s c = None.
Proof.
  intros Hs Hu. rewrite rmatch_Seq, rmatch_Opt_skip.
  - rewrite rmatch_Seq. by apply rmatch_plus_stops.
  - rewrite rmatch_Group. by apply rmatch_class_stops.
Qed.

(** The relative pattern on [in], white space, an amount, white space and a
    text that starts with neither white space nor a unit letter: the
    optional unit takes no part and the text is the third group. *)
Lemma exec_in_spaced sp ds sp2 c rest :
  sp <> [] -> Forall (fun x => Char.isSpace x = true) sp ->
  ds <> [] -> Forall (fun x => Char.isDigit x = true) ds ->
  sp2 <> [] -> Forall (fun x => Char.isSpace x = true) sp2 ->
  Char.isSpace c = false -> Char.isOneOf (chars "smhd") c = false ->
  Forall (fun x => Char.isDot x = true) (c :: rest) ->
  Regex.exec re_in (chars "in" ++ sp ++ ds ++ sp2 ++ c :: rest)
  = Some (<[3%nat := c :: rest]> (<[1%nat := ds]> ∅)).
Proof.
  intros Hsp Fsp Hds Fds Hsp2 Fsp2 Hc1 Hc2 Fdot.
  unfold re_in, ws, digit, dot. cbn [Regex.chain]. rewrite exec_anchored.
  generalize (chars "in" ++ sp ++ ds ++ sp2 ++ c :: rest) at 1. intros input.
  destruct sp as [|y sp]; [done|]. inversion_clear Fsp as [|?? Hy Fsp'].
  destruct ds as [|d ds]; [done|]. inversion_clear Fds as [|?? Hd Fds'].
  destruct sp2 as [|z sp2 _] using rev_ind; [done|].
  apply Forall_app in Fsp2 as [Fsp2 Hz]. inversion_clear Hz as [|?? Hz' _].
  inversion_clear Fdot as [|?? Hcd Frest].
  (* in *)
  rewrite rmatch_Seq. change (lit "in") with (Seq (Class (Char.isChar "i")) (Class (Char.isChar "n"))).
  change (chars "in" ++ ?l) with ("i"%char :: "n"%char :: l).
  rewrite rmatch_Seq, rmatch_class_true by done.
  rewrite rmatch_class_true by done.
  (* \s+ *)
  rewrite rmatch_Seq.
  change ((y :: sp) ++ ?l) with (y :: sp ++ l).
  rewrite rmatch_plus_class; [|done|done|by simpl; apply digit_not_space].
  apply backoff_rest.
  (* (\d+) *)
  rewrite rmatch_Seq, rmatch_Group.
  change ((d :: ds) ++ ?l) with (d :: ds ++ l).
  rewrite rmatch_plus_class; [|done|done|].
  2:{ destruct sp2; simpl; apply space_not_digit; [done|]. by inversion Fsp2. }
  apply backoff_rest.
  change (d :: ds ++ ?l) with ((d :: ds) ++ l). rewrite take_run.
  (* \s* backs off by one character *)
  rewrite rmatch_Seq.
  rewrite rmatch_star_class; [|by apply Forall_app; split; [|constructor]|done].
  rewrite backoff_snoc, unit_tail_stops by (simpl; auto).
  apply backoff_rest.
  (* ([smhd])? does not take part *)
  rewrite rmatch_Seq, rmatch_Opt_skip.
  2:{ rewrite rmatch_Group. apply rmatch_class_stops. simpl. by apply space_not_unit. }
  (* \s+ *)
  rewrite rmatch_Seq.
  rewrite (rmatch_plus_class input Char.isSpace _ z [] (c :: rest)); [|done|done|done].
  cbn [backoff].
  (* (.+)$ *)
  rewrite rmatch_Seq, rmatch_Group.
  rewrite <- (app_nil_r rest) at 1.
  rewrite rmatch_plus_class; [|done|done|done].
  apply backoff_rest. rewrite rmatch_Eos_nil. unfold accept.
  by rewrite take_ge by (simpl; lia).
Qed.

(** The relative pattern does not match when the amount is followed at once
    by a character that is neither a digit, white space nor a unit letter. *)
Lemma exec_in_adjacent sp ds c rest :
  sp <> [] -> Forall (fun x => Char.isSpace x = true) sp ->
  ds <> [] -> Forall (fun x => Char.isDigit x = true) ds ->
  Char.isDigit c = false -> Char.isSpace c = false ->
  Char.isOneOf (chars "smhd") c = false ->
  Regex.exec re_in (chars "in" ++ sp ++ ds ++ c :: rest) = None.
Proof.
  intros Hsp Fsp Hds Fds Hc0 Hc1 Hc2.
  unfold re_in, ws, digit, dot. cbn [Regex.chain]. rewrite exec_anchored.
  generalize (chars "in" ++ sp ++ ds ++ c :: rest) at 1. intros input.
  destruct sp as [|y sp]; [done|]. inversion_clear Fsp as [|?? Hy Fsp'].
  destruct ds as [|d ds]; [done|]. inversion_clear Fds as [|?? Hd Fds'].
  rewrite rmatch_Seq. change (lit "in") with (Seq (Class (Char.isChar "i")) (Class (Char.isChar "n"))).
  change (chars "in" ++ ?l) with ("i"%char :: "n"%char :: l).
  rewrite rmatch_Seq, rmatch_class_true by done.
  rewrite rmatch_class_true by done.
  rewrite rmatch_Seq.
  change ((y :: sp) ++ ?l) with (y :: sp ++ l).
  rewrite rmatch_plus_class; [|done|done|by simpl; apply digit_not_space].
  apply backoff_None. intros ys Hys.
  destruct ys as [|y' ys].
  - (* all the white space read: every split of the digits fails *)
    rewrite app_nil_l, rmatch_Seq, rmatch_Group.
    change ((d :: ds) ++ ?l) with (d :: ds ++ l).
    rewrite rmatch_plus_class; [|done|done|done].
    apply backoff_None. intros zs Hzs.
    rewrite rmatch_Seq.
    rewrite (rmatch_star_class input Char.isSpace _ [] (zs ++ c :: rest)); [|done|].
    + cbn [backoff]. apply unit_tail_stops.
      * destruct zs as [|z zs]; simpl; [done|]. apply digit_not_space.
        apply (suffix_head_Forall _ _ _ _ Fds' Hzs).
      * destruct zs as [|z zs]; simpl; [done|]. apply digit_not_unit.
        apply (suffix_head_Forall _ _ _ _ Fds' Hzs).
    + destruct zs as [|z zs]; simpl; [done|]. apply digit_not_space.
      apply (suffix_head_Forall _ _ _ _ Fds' Hzs).
  - (* some white space left: no digit there *)
    rewrite rmatch_Seq, rmatch_Group. apply rmatch_plus_stops. simpl.
    apply space_not_digit. apply (suffix_head_Forall _ _ _ _ Fsp' Hys).
Qed.

Lemma exec_at_other x s :
  Char.isChar "a" x = false -> Regex.exec re_at (x :: s) = None.
Proof.
  intros Hx. unfold re_at. cbn [Regex.chain]. rewrite exec_anchored.
  rewrite rmatch_Seq.
  change (lit "at") with (Seq (Class (Char.isChar "a")) (Class (Char.isChar "t"))).
  rewrite rmatch_Seq. by apply rmatch_class_stops.
Qed.

Lemma exec_tomorrow_other x s :
  Char.isChar "t" x = false -> Regex.exec re_tomorrow (x :: s) = None.
Proof.
  intros Hx. unfold re_tomorrow. cbn [Regex.chain]. rewrite exec_anchored.
  rewrite rmatch_Seq.
  change (lit "tomorrow") with
    (Seq (Class (Char.isChar "t")) (Regex.chain (map (fun p => Class (Char.isChar p)) (chars "omorrow")))).
  rewrite rmatch_Seq. by apply rmatch_class_stops.
Qed.

Lemma parse_adjacent sp ds c rest w :
  sp <> [] -> Forall (fun x => Char.isSpace x = true) sp ->
  ds <> [] -> Forall (fun x => Char.isDigit x = true) ds ->
  Char.isDigit c = false -> Char.isSpace c = false ->
  Char.isOneOf (chars "smhd") c = false ->
  parseWhenAndText (str (chars "in" ++ sp ++ ds ++ c :: rest)) w = (None, w).
Proof.
  intros. unfold parseWhenAndText, orElse, parseInSyntax, parseAtSyntax, parseTomorrowSyntax.
  rewrite chars_str, exec_in_adjacent by done.
  change (chars "in" ++ ?l) with ("i"%char :: "n"%char :: l).
  rewrite exec_at_other, exec_tomorrow_other by done.
  done.
Qed.

Lemma parse_spaced sp ds sp2 c rest w :
  sp <> [] -> Forall (fun x => Char.isSpace x = true) sp ->
  ds <> [] -> Forall (fun x => Char.isDigit x = true) ds ->
  sp2 <> [] -> Forall (fun x => Char.isSpace x = true) sp2 ->
  Char.isSpace c = false -> Char.isOneOf (chars "smhd") c = false ->
  Forall (fun x => Char.isDot x = true) (c :: rest) ->
  parseWhenAndText (str (chars "in" ++ sp ++ ds ++ sp2 ++ c :: rest)) w
  = (Some (Parsed.mk (clock w (reads w) + Number_of_digits ds * 60000)
             (str (trim (c :: rest)))
             ("in " ++ Number_toString (Number_of_digits ds) ++ "m")),
     (Date_now w).2).
Proof.
  intros. unfold parseWhenAndText, orElse, parseInSyntax.
  rewrite chars_str, exec_in_spaced by done.
  unfold group. rewrite lookup_insert_ne, lookup_insert_eq by done.
  rewrite lookup_insert_ne, lookup_insert_ne, lookup_empty by done.
  rewrite lookup_insert_eq.
  change (multipliers !! str (toLowerCase (chars "m"))) with (Some 60000).
  done.
Qed.

(** ** The relative grammar on the examples of the specification *)

(** C8: [parse("in 10m Buy milk", now)] is due at [now + 600000] with text
    [Buy milk] and descriptor [in 10m]; without a unit, [parse("in 2 Call
    mom", now)] is due at [now + 120000], in minutes. [now] is the reading of
    [Date.now()] the parser takes. *)
Theorem C8_relative_examples (w : World) :
  parseWhenAndText "in 10m Buy milk" w
    = (Some (Parsed.mk (clock w (reads w) + 600000) "Buy milk" "in 10m"),
       (Date_now w).2)
  ∧ parseWhenAndText "in 2 Call mom" w
    = (Some (Parsed.mk (clock w (reads w) + 120000) "Call mom" "in 2m"),
       (Date_now w).2).
Proof. split; vm_compute; reflexivity. Qed.

(** The other examples of the specification, on a host on UTC whose clock
    reads 2025-08-12 12:00:00: the absolute grammar gives 2025-08-22 15:30,
    the next-day grammar gives 2025-08-13 09:00, and a text without a time
    token matches nothing. *)
Example parse_at_example :
  (parseWhenAndText "at 2025-08-22 15:30 Team sync" initial).1
  = Some (Parsed.mk 1755876600000 "Team sync" "at 2025-08-22 15:30").
Proof. vm_compute. reflexivity. Qed.

Example parse_tomorrow_example :
  (parseWhenAndText "tomorrow 09:00 Standup" initial).1
  = Some (Parsed.mk 1755075600000 "Standup" "tomorrow 09:00").
Proof. vm_compute. reflexivity. Qed.

Example parse_no_match_example :
  (parseWhenAndText "hello world" initial).1 = None.
Proof. vm_compute. reflexivity. Qed.

(** ** Unit letters of the relative grammar *)

(** C3, counterexample: [in 10x Buy milk] has the letter [x] where a unit
    may stand; no grammar matches it. *)
Lemma C3_counterexample :
  (parseWhenAndText "in 10x Buy milk" initial).1 = None.
Proof. vm_compute. reflexivity. Qed.

(** C3, amended: after [in] and an amount of digits, a character [c] that is
    not white space and not one of s, m, h, d (in either case) never selects
    a unit. Written right after the amount (and not a digit), no grammar
    matches and the parse fails, reading no clock. Separated from the amount
    by white space and followed by a text without line break, the relative
    grammar matches with the unit omitted: the amount counts minutes and [c]
    starts the text, as long as the numbers stay within the integers a
    JavaScript number holds exactly. *)
Theorem C3_unit_letters (sp ds : list ascii) (c : ascii) (rest : list ascii)
    (w : World) :
  sp <> [] -> Forall (fun x => Char.isSpace x = true) sp ->
  ds <> [] -> Forall (fun x => Char.isDigit x = true) ds ->
  Char.isSpace c = false -> Char.isOneOf (chars "smhd") c = false ->
  (Char.isDigit c = false ->
   parseWhenAndText (str (chars "in" ++ sp ++ ds ++ c :: rest)) w = (None, w))
  ∧ (forall sp2 : list ascii,
       sp2 <> [] -> Forall (fun x => Char.isSpace x = true) sp2 ->
       Forall (fun x => Char.isDot x = true) (c :: rest) ->
       0 <= clock w (reads w) ->
       clock w (reads w) + Number_of_digits ds * 60000 <= 9007199254740991 ->
       parseWhenAndText (str (chars "in" ++ sp ++ ds ++ sp2 ++ c :: rest)) w
       = (Some (Parsed.mk (clock w (reads w) + Number_of_digits ds * 60000)
                  (str (trim (c :: rest)))
                  ("in " ++ Number_toString (Number_of_digits ds) ++ "m")),
          (Date_now w).2)).
Proof.
  intros Hsp Fsp Hds Fds Hc1 Hc2. split.
  - intros Hc0. by apply parse_adjacent.
  - intros sp2 Hsp2 Fsp2 Fdot _ _. by apply parse_spaced.
Qed.

Lemma C3_unit_letters_witness :
  parseWhenAndText "in 10x Buy milk" initial = (None, initial)
  ∧ parseWhenAndText "in 10 x Buy milk" initial
    = (Some (Parsed.mk (1755000000000 + 600000) "x Buy milk" "in 10m"),
       (Date_now initial).2).
Proof.
  destruct (C3_unit_letters (chars " ") (chars "10") "x" (chars " Buy milk")
              initial) as [Hadj Hsp].
  - done.
  - repeat constructor.
  - done.
  - repeat constructor.
  - reflexivity.
  - reflexivity.
  - split.
    + apply Hadj. reflexivity.
    + apply (Hsp (chars " ")).
      * done.
      * repeat constructor.
      * repeat constructor.
      * done.
      * done.
Defined.

(** ** Matches with an empty text *)

(** The service-level outcome of a parse: the three patterns decide alone
    whether the parser matches. *)
Lemma parse_None_iff (input : string) (w : World) :
  (parseWhenAndText input w).1 = None
  <-> Regex.exec re_in (chars input) = None
      ∧ Regex.exec re_at (chars input) = None
      ∧ Regex.exec re_tomorrow (chars input) = None.
Proof.
  unfold parseWhenAndText, orElse, parseInSyntax, parseAtSyntax,
    parseTomorrowSyntax.
  destruct (Regex.exec re_in (chars input)); simpl; [intuition congruence|].
  destruct (Regex.exec re_at (chars input)); simpl; [intuition congruence|].
  destruct (Regex.exec re_tomorrow (chars input)); simpl; intuition congruence.
Qed.

(** The handler trims [ctx.match] before it parses, so the same text sent to
    [/remind] reaches the parser as [in 10m] and is answered "Couldn't parse
    that". *)
Lemma cmd_remind_trailing_space (chat : Z) (user : option Z) (w : World) :
  cmd_remind chat user "in 10m  " w = (CouldntParse, w).
Proof. vm_compute. reflexivity. Qed.

(** A successful match went through its continuation, at a suffix of the
    position it started from. *)
Lemma rmatch_through input r : forall k s c res,
  rmatch input r k s c = Some res ->
  exists s' c', s' `suffix_of` s ∧ k s' c' = Some res.
Proof.
  induction r as [| | |p|r1 IH1 r2 IH2|r IH|r IH|n r IH]; intros k s c res H;
    cbn [rmatch] in H.
  - eauto.
  - case_decide; [eauto|done].
  - destruct s; [eauto|done].
  - destruct s as [|x s]; [done|]. destruct (p x); [|done].
    exists s, c. split; [by apply suffix_cons_r|done].
  - apply IH1 in H as (s1 & c1 & Hs1 & H).
    apply IH2 in H as (s2 & c2 & Hs2 & H).
    exists s2, c2. split; [by etrans|done].
  - destruct (rmatch input r k s c) eqn:E.
    + injection H as ->. by apply IH in E.
    + eauto.
  - remember (length s) as fuel eqn:Hfuel. clear Hfuel.
    revert s c H. induction fuel as [|fuel IHf]; intros s c H; simpl in H.
    + eauto.
    + match type of H with
      | match ?m with _ => _ end = _ => destruct m eqn:E
      end.
      * injection H as ->. apply IH in E as (s1 & c1 & Hs1 & E).
        case_decide; [|done].
        apply IHf in E as (s2 & c2 & Hs2 & E).
        exists s2, c2. split; [by etrans|done].
      * eauto.
  - apply IH in H as (s1 & c1 & Hs1 & H). eauto.
Qed.













(** ** An amount of zero *)

(** C10: the relative grammar accepts the amount 0: [in 0s x] parses, due at
    the very reading of the clock the parser took; [create] then reads the
    clock again and, as the clock does not run backwards, rejects the
    reminder as past due without touching the store. *)
Theorem C10_zero_amount (chat : Z) (user : option Z) (w : World) :
  clock w (reads w) <= clock w (S (reads w)) ->
  parseWhenAndText "in 0s x" w
  = (Some (Parsed.mk (clock w (reads w)) "x" "in 0s"), (Date_now w).2)
  ∧ (create chat user "in 0s x" w).1 = PastDue
  ∧ disk (create chat user "in 0s x" w).2 = disk w
  ∧ writes (create chat user "in 0s x" w).2 = writes w.
Proof.
  intros Hclock.
  assert (parseWhenAndText "in 0s x" w
          = (Some (Parsed.mk (clock w (reads w)) "x" "in 0s"), (Date_now w).2))
    as Hparse.
  { transitivity
      (Some (Parsed.mk (clock w (reads w) + 0) "x" "in 0s"), (Date_now w).2).
    - vm_compute. reflexivity.
    - by rewrite Z.add_0_r. }
  split; [exact Hparse|].
  unfold create, mbind, M_bind. rewrite Hparse.
  cbn [Parsed.text Parsed.dueAt].
  rewrite bool_decide_false by done.
  cbn [Date_now snd fst clock reads].
  apply Z.leb_le in Hclock. rewrite Hclock. done.
Qed.

Lemma C10_zero_amount_witness :
  parseWhenAndText "in 0s x" initial
  = (Some (Parsed.mk 1755000000000 "x" "in 0s"), (Date_now initial).2)
  ∧ (create 7 None "in 0s x" initial).1 = PastDue
  ∧ disk (create 7 None "in 0s x" initial).2 = disk initial
  ∧ writes (create 7 None "in 0s x" initial).2 = writes initial.
Proof. apply (C10_zero_amount 7 None initial). vm_compute. discriminate. Defined.

(** ** Loading the store from the file *)

(** C4, counterexample: a file that holds [{}] is well-formed JSON and not a
    store record; [readDB] returns the parsed object, not the empty default. *)
Lemma C4_counterexample :
  Raw.readDB (Raw.Content "{}") = Raw.Ok (Raw.JObject [])
  ∧ Raw.isStoreRecord (Raw.JObject []) = false
  ∧ Raw.JObject [] ≠ Raw.emptyDB.
Proof. repeat split; try (vm_compute; reflexivity). discriminate. Qed.

(** C4, amended: in every state of the file [readDB] returns a value and
    never raises. It returns the empty default when the file is missing or
    unreadable and when its text is not well-formed JSON; when the text is
    well-formed JSON it returns the parsed value as it is, store record or
    not. *)
Theorem C4_readDB_fallback (m : Raw.Medium) :
  (exists v, Raw.readDB m = Raw.Ok v)
  ∧ (m = Raw.Missing ∨ m = Raw.Unreadable -> Raw.readDB m = Raw.Ok Raw.emptyDB)
  ∧ (forall raw e, m = Raw.Content raw -> Raw.JSON_parse raw = Raw.Throw e ->
       Raw.readDB m = Raw.Ok Raw.emptyDB)
  ∧ (forall raw v, m = Raw.Content raw -> Raw.JSON_parse raw = Raw.Ok v ->
       Raw.readDB m = Raw.Ok v).
Proof.
  split; [|split; [|split]].
  - destruct m as [| |raw]; unfold Raw.readDB; simpl; eauto.
    destruct (Raw.JSON_parse raw); simpl; eauto.
  - intros [-> | ->]; reflexivity.
  - intros raw e -> Hparse. unfold Raw.readDB. simpl. by rewrite Hparse.
  - intros raw v -> Hparse. unfold Raw.readDB. simpl. by rewrite Hparse.
Qed.

Lemma C4_readDB_fallback_witness :
  Raw.readDB Raw.Missing = Raw.Ok Raw.emptyDB
  ∧ Raw.readDB (Raw.Content "{ lastId: 0") = Raw.Ok Raw.emptyDB
  ∧ Raw.readDB (Raw.Content "[1 , 2]")
    = Raw.Ok (Raw.JArray [Raw.JNumber 1 0; Raw.JNumber 2 0]).
Proof.
  split; [|split].
  - apply (C4_readDB_fallback Raw.Missing). by left.
  - destruct (C4_readDB_fallback (Raw.Content "{ lastId: 0")) as (_ & _ & H & _).
    apply (H "{ lastId: 0"%string Raw.SyntaxError); [reflexivity|].
    vm_compute. reflexivity.
  - destruct (C4_readDB_fallback (Raw.Content "[1 , 2]")) as (_ & _ & _ & H).
    apply (H "[1 , 2]"%string); [reflexivity|]. vm_compute. reflexivity.
Defined.

(** ** The loop of the scheduler, element by element *)

Lemma insert_middle {A} (pre : list A) x y l :
  <[length pre := y]> (pre ++ x :: l) = pre ++ y :: l.
Proof. rewrite insert_app_r_alt by lia. by rewrite Nat.sub_diag. Qed.

(** The loop of [tick] over the references [filter] returned mutates the
    array exactly as the element-wise [sweep] maps it. *)
Lemma forEach_sweep now l : forall pre w,
  forEach (refs_from (isDue now) (length pre) l) (pre ++ l) w
  = let '(l', w') := sweep now l w in (pre ++ l', w').
Proof.
  induction l as [|r l IH]; intros pre w.
  - simpl. unfold mret, M_ret. done.
  - cbn [refs_from sweep]. destruct (decide (isDue now r)) as [Hdue|Hdue].
    + cbn [forEach]. munfold. unfold attempt.
      rewrite list_lookup_middle by done.
      munfold. unfold deliver. munfold.
      destruct (sendMessage (render r) w) as [[] w1].
      * destruct (Date_now w1) as [t w2].
        rewrite insert_middle.
        specialize (IH (pre ++ [Reminder.markSent t r]) w2).
        rewrite length_app in IH. simpl in IH.
        replace (length pre + 1)%nat with (S (length pre)) in IH by lia.
        rewrite <- app_assoc in IH. simpl in IH. rewrite IH.
        destruct (sweep now l w2) as [l' w3]. by rewrite <- app_assoc.
      * specialize (IH (pre ++ [r]) w1).
        rewrite length_app in IH. simpl in IH.
        replace (length pre + 1)%nat with (S (length pre)) in IH by lia.
        rewrite <- app_assoc in IH. simpl in IH. rewrite IH.
        destruct (sweep now l w1) as [l' w3]. by rewrite <- app_assoc.
    + munfold.
      specialize (IH (pre ++ [r]) w).
      rewrite length_app in IH. simpl in IH.
      replace (length pre + 1)%nat with (S (length pre)) in IH by lia.
      rewrite <- app_assoc in IH. simpl in IH. rewrite IH.
      destruct (sweep now l w) as [l' w3]. by rewrite <- app_assoc.
Qed.

Lemma turn_spec now r w :
  let ok := network w (length (outbox w)) in
  let w' := (turn now r w).2 in
  same_env w w' ∧ disk w' = disk w ∧ writes w' = writes w
  ∧ (reads w <= reads w')%nat
  ∧ outbox w' = outbox w ++ attempts_from (network w) (length (outbox w))
                              (filter (isDue now) [r])
  ∧ (turn now r w).1
    = if decide (isDue now r)
      then if ok then Reminder.markSent (clock w (reads w)) r else r
      else r.
Proof.
  unfold turn, same_env. destruct (decide (isDue now r)) as [Hdue|Hdue].
  - rewrite filter_cons_True, filter_nil by done.
    unfold deliver. munfold. unfold sendMessage.
    destruct (network w (length (outbox w))) eqn:E; simpl; repeat split; auto. all: try (rewrite E; done).
  - rewrite filter_cons_False, filter_nil by done.
    munfold. simpl. rewrite app_nil_r. repeat split; auto.
Qed.

Lemma sweep_cons now r l w :
  sweep now (r :: l) w
  = ((turn now r w).1 :: (sweep now l (turn now r w).2).1,
     (sweep now l (turn now r w).2).2).
Proof.
  cbn [sweep]. fold (turn now r). munfold.
  destruct (turn now r w) as [r' w1]. simpl.
  by destruct (sweep now l w1).
Qed.

Lemma attempts_from_app net n l1 l2 :
  attempts_from net n (l1 ++ l2)
  = attempts_from net n l1 ++ attempts_from net (n + length l1) l2.
Proof.
  revert n. induction l1 as [|r l1 IH]; intros n; simpl.
  - by rewrite Nat.add_0_r.
  - rewrite IH. do 3 f_equal. lia.
Qed.

Lemma attempts_from_length net n l :
  length (attempts_from net n l) = length l.
Proof. revert n. induction l; intros; simpl; auto. Qed.

Lemma attempts_from_lookup net n l k :
  attempts_from net n l !! k = (fun r => (render r, net (n + k)%nat)) <$> l !! k.
Proof.
  revert n k. induction l as [|r l IH]; intros n [|k]; simpl; try done.
  - by rewrite Nat.add_0_r.
  - rewrite IH. by replace (S n + k)%nat with (n + S k)%nat by lia.
Qed.

Lemma attempts_from_fst net n l :
  (attempts_from net n l).*1 = render <$> l.
Proof. revert n. induction l as [|r l IH]; intros n; simpl; [done|]. by rewrite IH. Qed.

Lemma sweep_frame now l : forall w,
  let w' := (sweep now l w).2 in
  same_env w w' ∧ disk w' = disk w ∧ writes w' = writes w
  ∧ (reads w <= reads w')%nat
  ∧ outbox w' = outbox w ++ attempts_from (network w) (length (outbox w))
                              (filter (isDue now) l)
  ∧ length (sweep now l w).1 = length l.
Proof.
  unfold same_env.
  induction l as [|r l IH]; intros w.
  - simpl. rewrite app_nil_r. repeat split; auto.
  - rewrite sweep_cons. cbn [fst snd].
    destruct (turn_spec now r w) as ([Hc [Hn Hz]] & Hd & Hw & Hr & Ho & _).
    destruct (IH (turn now r w).2) as ([Hc' [Hn' Hz']] & Hd' & Hw' & Hr' & Ho' & Hl').
    repeat split; try congruence; try lia.
    + rewrite Ho', Ho, Hn, <- app_assoc. f_equal.
      change (r :: l) with ([r] ++ l).
      rewrite filter_app, attempts_from_app. f_equal.
      rewrite length_app, attempts_from_length. done.
    + simpl. by rewrite Hl'.
Qed.

Lemma sweep_lookup now l : forall w i r,
  l !! i = Some r ->
  let ok := network w (length (outbox w)
                       + length (filter (isDue now) (take i l))) in
  (sweep now l w).1 !! i
  = Some (if decide (isDue now r)
          then if ok then Reminder.markSent
                            (clock w (reads (sweep now (take i l) w).2)) r
               else r
          else r).
Proof.
  induction l as [|a l IH]; intros w i r Hi; [done|].
  rewrite sweep_cons. destruct i as [|i]; simpl in Hi.
  - injection Hi as ->. cbn [fst lookup list_lookup take filter length].
    simpl. rewrite Nat.add_0_r.
    by destruct (turn_spec now r w) as (_ & _ & _ & _ & _ & ->).
  - cbn [fst]. simpl lookup. rewrite (IH _ _ _ Hi).
    destruct (turn_spec now a w) as ([Hc [Hn Hz]] & Hd & Hw & Hr & Ho & _).
    rewrite Hn, Hc, Ho, length_app, attempts_from_length.
    cbn [take]. rewrite sweep_cons. cbn [snd].
    rewrite (filter_app _ [a] (take i l)), length_app, Nat.add_assoc.
    done.
Qed.

Lemma refs_from_nil {A} (P : A -> Prop) `{!∀ x, Decision (P x)} i l :
  refs_from P i l = [] <-> filter P l = [].
Proof.
  revert i. induction l as [|x l IH]; intros i; simpl; [done|].
  destruct (decide (P x)).
  - rewrite filter_cons_True by done. done.
  - rewrite filter_cons_False by done. apply IH.
Qed.

Lemma sweep_no_due now l w :
  filter (isDue now) l = [] -> sweep now l w = (l, w).
Proof.
  revert w. induction l as [|r l IH]; intros w Hf; [done|].
  destruct (decide (isDue now r)) as [Hdue|Hdue].
  - by rewrite filter_cons_True in Hf.
  - rewrite filter_cons_False in Hf by done.
    rewrite sweep_cons. unfold turn. rewrite decide_False by done.
    munfold. simpl. by rewrite IH.
Qed.

Lemma sweep_status_same now l : forall w,
  Reminder.status <$> (sweep now l w).1 = Reminder.status <$> l ->
  (sweep now l w).1 = l.
Proof.
  induction l as [|a l IH]; intros w H; [done|].
  rewrite sweep_cons in *. cbn [fst fmap list_fmap] in *.
  injection H as H1 H2. f_equal; [|by apply IH].
  destruct (turn_spec now a w) as (_ & _ & _ & _ & _ & Ha).
  rewrite Ha in *. destruct (decide (isDue now a)) as [[Hp _]|]; [|done].
  destruct (network w (length (outbox w))); [|done].
  simpl in H1. congruence.
Qed.

Lemma sweep_ids now l : forall w,
  Reminder.id <$> (sweep now l w).1 = Reminder.id <$> l.
Proof.
  induction l as [|a l IH]; intros w; [done|].
  rewrite sweep_cons. cbn [fst fmap list_fmap]. rewrite IH. f_equal.
  destruct (turn_spec now a w) as (_ & _ & _ & _ & _ & ->).
  destruct (decide _); [|done]. by destruct (network _ _).
Qed.

(** ** One tick *)

(** [tick], with its loop read element by element. *)
Lemma tick_sweep w :
  let now := clock w (reads w) in
  let rs := reminders (stored w) in
  let sw := sweep now rs (Date_now w).2 in
  tick w
  = (tt, match filter (isDue now) rs with
         | [] => sw.2
         | _ :: _ =>
             (writeDB {| lastId := lastId (stored w); reminders := sw.1 |}
                sw.2).2
         end).
Proof.
  intros now rs sw. unfold tick. munfold.
  cbn [Date_now]. unfold readDB at 1. cbn [disk].
  change (match disk w with Some db => db | None => emptyDB end)
    with (stored w).
  fold rs. fold now.
  pose proof (forEach_sweep now rs [] (Date_now w).2) as Hloop.
  simpl in Hloop. unfold Date_now in Hloop. rewrite Hloop. clear Hloop.
  subst sw. cbn [Date_now snd].
  destruct (sweep now rs _) as [l' w1]. cbn [fst snd].
  destruct (refs_from (isDue now) 0 rs) eqn:Hrefs.
  - apply refs_from_nil in Hrefs. by rewrite Hrefs.
  - destruct (filter (isDue now) rs) eqn:Hf; [|done].
    apply (refs_from_nil _ 0%nat) in Hf. congruence.
Qed.

Lemma tick_stored w :
  let now := clock w (reads w) in
  stored (tick w).2
  = {| lastId := lastId (stored w);
       reminders := (sweep now (reminders (stored w)) (Date_now w).2).1 |}.
Proof.
  cbv zeta. set (now := clock w (reads w)). rewrite tick_sweep. cbn [snd]. fold now.
  destruct (filter (isDue now) (reminders (stored w))) eqn:Hf.
  - rewrite sweep_no_due by done. cbn [fst snd].
    unfold stored, readDB. simpl. by destruct (disk w) as [[]|].
  - done.
Qed.

Lemma tick_outbox w :
  let now := clock w (reads w) in
  outbox (tick w).2
  = outbox w ++ attempts_from (network w) (length (outbox w))
                  (filter (isDue now) (reminders (stored w))).
Proof.
  cbv zeta. set (now := clock w (reads w)). rewrite tick_sweep. cbn [snd]. fold now.
  destruct (sweep_frame now (reminders (stored w)) (Date_now w).2)
    as (_ & _ & _ & _ & Ho & _).
  destruct (filter (isDue now) (reminders (stored w))) eqn:Hf; exact Ho.
Qed.

Lemma tick_env w :
  same_env w (tick w).2 ∧ (reads w < reads (tick w).2)%nat.
Proof.
  rewrite tick_sweep. cbn [snd].
  destruct (sweep_frame (clock w (reads w)) (reminders (stored w)) (Date_now w).2)
    as ((Hc & Hn & Hz) & _ & _ & Hr & _ & _).
  unfold same_env.
  destruct (filter _ _); simpl in *; repeat split; auto; lia.
Qed.

Lemma tick_writes w :
  let now := clock w (reads w) in
  writes (tick w).2
  = (writes w + if decide (filter (isDue now) (reminders (stored w)) = [])
                then 0 else 1)%nat.
Proof.
  cbv zeta. set (now := clock w (reads w)). rewrite tick_sweep. cbn [snd]. fold now.
  destruct (sweep_frame now (reminders (stored w)) (Date_now w).2)
    as (_ & _ & Hw & _ & _ & _).
  destruct (filter (isDue now) (reminders (stored w))) eqn:Hf.
  - rewrite decide_True by done. rewrite Hw. cbn [Date_now snd writes]. lia.
  - rewrite decide_False by done. cbn [writeDB snd writes]. rewrite Hw.
    cbn [Date_now snd writes]. lia.
Qed.

Lemma tick_disk_no_due w :
  filter (isDue (clock w (reads w))) (reminders (stored w)) = [] ->
  disk (tick w).2 = disk w.
Proof.
  intros Hf. rewrite tick_sweep. cbn [snd]. rewrite Hf.
  by rewrite sweep_no_due.
Qed.

Lemma tick_lookup w i r :
  let now := clock w (reads w) in
  let rs := reminders (stored w) in
  let n := (length (outbox w) + length (filter (isDue now) (take i rs)))%nat in
  rs !! i = Some r ->
  exists j, (reads w < j)%nat ∧
  reminders (stored (tick w).2) !! i
  = Some (if decide (isDue now r)
          then if network w n then Reminder.markSent (clock w j) r else r
          else r).
Proof.
  cbv zeta. set (now := clock w (reads w)). set (rs := reminders (stored w)).
  intros Hi. rewrite tick_stored. cbn [reminders]. fold now. fold rs.
  exists (reads (sweep now (take i rs) (Date_now w).2).2).
  split.
  - destruct (sweep_frame now (take i rs) (Date_now w).2)
      as (_ & _ & _ & Hr & _).
    change (reads (Date_now w).2) with (S (reads w)) in Hr. lia.
  - by rewrite (sweep_lookup now rs (Date_now w).2 i r Hi).
Qed.

Lemma rank_lt {A} (P : A -> Prop) `{!∀ x, Decision (P x)} l i x :
  l !! i = Some x -> P x ->
  (length (filter P (take i l)) < length (filter P l))%nat.
Proof.
  intros Hi Hx. rewrite <- (take_drop_middle l i x Hi) at 2.
  rewrite filter_app, filter_cons_True, length_app by done. simpl. lia.
Qed.

Lemma filter_none {A} (P : A -> Prop) `{!∀ x, Decision (P x)} l :
  Forall (fun x => ¬ P x) l -> filter P l = [].
Proof.
  induction 1 as [|x l Hx _ IH]; [done|]. by rewrite filter_cons_False.
Qed.

(** After a tick whose deliveries all succeeded nothing is due any more at
    the same instant. *)
Lemma tick_settled w :
  let now := clock w (reads w) in
  let due := filter (isDue now) (reminders (stored w)) in
  (forall k, (k < length due)%nat ->
             network w (length (outbox w) + k) = true) ->
  filter (isDue now) (reminders (stored (tick w).2)) = [].
Proof.
  cbv zeta. intros Hnet.
  apply filter_none, Forall_lookup. intros i r' Hi'.
  destruct (lookup_lt_is_Some_2 (reminders (stored w)) i) as [r Hi].
  { apply lookup_lt_Some in Hi'. rewrite tick_stored in Hi'.
    cbn [reminders] in Hi'.
    by destruct (sweep_frame (clock w (reads w)) (reminders (stored w))
                   (Date_now w).2) as (_ & _ & _ & _ & _ & <-). }
  destruct (tick_lookup w i r Hi) as (j & _ & Hlook).
  rewrite Hlook in Hi'. injection Hi' as <-.
  destruct (decide _) as [Hdue|Hnd]; [|done].
  rewrite Hnet by (by eapply rank_lt). intros [Hp _]. done.
Qed.

(** ** Delivery and retry *)

Lemma turn_reads now r w :
  reads (turn now r w).2
  = (reads w + if decide (isDue now r)
               then if network w (length (outbox w)) then 1 else 0
               else 0)%nat.
Proof.
  unfold turn. destruct (decide (isDue now r)); [|cbn; lia].
  unfold deliver. munfold. unfold sendMessage.
  destruct (network w (length (outbox w))); cbn; lia.
Qed.

Lemma delivered_app box box' :
  delivered (box ++ box') = (delivered box + delivered box')%nat.
Proof. unfold delivered. by rewrite filter_app, length_app. Qed.

Lemma delivered_one (msg : Message) (ok : bool) :
  delivered [(msg, ok)] = if ok then 1%nat else 0%nat.
Proof. by destruct ok. Qed.

(** The clock readings a pass has taken after a stretch of the array: one
    for every send that resolved. *)
Lemma sweep_reads now l : forall w,
  reads (sweep now l w).2
  = (reads w
     + delivered (attempts_from (network w) (length (outbox w))
                    (filter (isDue now) l)))%nat.
Proof.
  induction l as [|r l IH]; intros w; [cbn; lia|].
  rewrite sweep_cons. cbn [snd]. rewrite IH, turn_reads.
  destruct (turn_spec now r w) as ((_ & Hn & _) & _ & _ & _ & Ho & _).
  rewrite Hn, Ho, length_app, attempts_from_length.
  rewrite (filter_app _ [r] l), attempts_from_app, delivered_app.
  rewrite filter_cons, filter_nil.
  destruct (decide (isDue now r)); cbn [attempts_from length].
  - rewrite delivered_one. destruct (network w (length (outbox w))); lia.
  - change (delivered []) with 0%nat. rewrite Nat.add_0_r. lia.
Qed.

Lemma tick_lookup_at w i r :
  let now := clock w (reads w) in
  let rs := reminders (stored w) in
  let before := attempts_from (network w) (length (outbox w))
                  (filter (isDue now) (take i rs)) in
  rs !! i = Some r ->
  reminders (stored (tick w).2) !! i
  = Some (if decide (isDue now r)
          then if network w (length (outbox w) + length before)
               then Reminder.markSent
                      (clock w (S (reads w) + delivered before)) r
               else r
          else r).
Proof.
  cbv zeta. set (now := clock w (reads w)). set (rs := reminders (stored w)).
  intros Hi. rewrite tick_stored. cbn [reminders]. fold now. fold rs.
  rewrite (sweep_lookup now rs (Date_now w).2 i r Hi).
  rewrite sweep_reads, attempts_from_length. done.
Qed.

(** C5, counterexample: of two due reminders the second is delivered; the
    pass selected at the reading 1755000000000 and stamps [sentAt] with the
    next reading. *)
Lemma C5_counterexample :
  clock flaky (reads flaky) = 1755000000000
  ∧ Reminder.status <$> reminders (stored (tick flaky).2) = [pending; sent]
  ∧ Reminder.sentAt <$> reminders (stored (tick flaky).2)
    = [None; Some 1755000000001].
Proof. vm_compute. done. Qed.

(** C5, amended: in a tick that reads the clock at [now], the [sendMessage]
    calls are those for the reminders with status pending and
    [dueAt <= now], once each, in store order. A reminder that is not due
    is left as it is. For a due reminder the call is the [n]-th of the
    process. When it resolves, the reminder gets status [sent] and
    [sentAt] the reading of [Date.now()] taken then, which is not [now] but
    the reading that follows it after one more for every earlier send of
    the pass that resolved; its [deletedAt] and its other fields stay.
    When the call fails the reminder is kept unchanged, still pending, and
    the next tick, whose clock reading is not earlier, attempts it again. *)
Theorem C5_tick_delivery (w : World) (i : nat) (r : Reminder.t) :
  let now := clock w (reads w) in
  let rs := reminders (stored w) in
  let w' := (tick w).2 in
  let rs' := reminders (stored w') in
  let before := attempts_from (network w) (length (outbox w))
                  (filter (isDue now) (take i rs)) in
  let n := (length (outbox w) + length before)%nat in
  outbox w' = outbox w ++ attempts_from (network w) (length (outbox w))
                            (filter (isDue now) rs)
  ∧ (rs !! i = Some r ->
     (¬ isDue now r -> rs' !! i = Some r)
     ∧ (isDue now r ->
        outbox w' !! n = Some (render r, network w n)
        ∧ (network w n = true ->
           exists r',
             rs' !! i = Some r'
             ∧ Reminder.status r' = sent
             ∧ Reminder.sentAt r'
               = Some (clock w (S (reads w) + delivered before))
             ∧ Reminder.deletedAt r' = Reminder.deletedAt r
             ∧ same_record r r')
        ∧ (network w n = false ->
           rs' !! i = Some r
           ∧ (now <= clock w' (reads w') ->
              render r ∈ (drop (length (outbox w')) (outbox (tick w').2)).*1)))).
Proof.
  cbv zeta.
  set (now := clock w (reads w)). set (rs := reminders (stored w)).
  set (w' := (tick w).2). set (rs' := reminders (stored w')).
  set (before := attempts_from (network w) (length (outbox w))
                   (filter (isDue now) (take i rs))).
  set (n := (length (outbox w) + length before)%nat).
  pose proof (tick_outbox w) as Hout. cbv zeta in Hout.
  fold now rs w' in Hout.
  split; [exact Hout|]. intros Hi.
  pose proof (tick_lookup_at w i r Hi) as Hlook. cbv zeta in Hlook.
  fold now rs w' rs' before n in Hlook.
  split.
  - intros Hnd. by rewrite decide_False in Hlook.
  - intros Hdue. rewrite decide_True in Hlook by done.
    split; [|split].
    + rewrite Hout. rewrite lookup_app_r by lia.
      replace (n - length (outbox w))%nat
        with (length (filter (isDue now) (take i rs)))
        by (subst n before; rewrite attempts_from_length; lia).
      rewrite attempts_from_lookup.
      replace (length (outbox w) + length (filter (isDue now) (take i rs)))%nat
        with n by (subst n before; by rewrite attempts_from_length).
      rewrite <- (take_drop_middle rs i r Hi) at 2.
      rewrite filter_app, filter_cons_True by done.
      by rewrite list_lookup_middle.
    + intros Hok. rewrite Hok in Hlook. eexists. split; [exact Hlook|].
      by repeat split.
    + intros Hfail. rewrite Hfail in Hlook. split; [done|].
      intros Hlater.
      pose proof (tick_outbox w') as Hout'. cbv zeta in Hout'.
      rewrite Hout', drop_app_length, attempts_from_fst.
      apply list_elem_of_fmap. exists r. split; [done|].
      apply list_elem_of_filter. split.
      * destruct Hdue as [Hp Hd]. split; [done|]. fold now in Hlater. lia.
      * apply list_elem_of_lookup. by exists i.
Qed.

Lemma C5_tick_delivery_witness :
  (exists r',
     reminders (stored (tick flaky).2) !! 1%nat = Some r'
     ∧ Reminder.status r' = sent
     ∧ Reminder.sentAt r' = Some 1755000000001
     ∧ Reminder.text r' = "y"%string)
  ∧ reminders (stored (tick flaky).2) !! 0%nat
    = Some (Reminder.mk 1 7 None "x" 1754999999000 1754999990000 pending
              "in 9s" None None)
  ∧ {| to := 7; mention := None; body := "x" |}
    ∈ (drop (length (outbox (tick flaky).2))
         (outbox (tick (tick flaky).2).2)).*1.
Proof.
  split.
  - destruct (C5_tick_delivery flaky 1
                (Reminder.mk 2 8 (Some 42) "y" 1754999999500 1754999990000
                   pending "in 9s" None None)) as [_ H].
    destruct (H eq_refl) as [_ Hdue].
    destruct Hdue as (_ & Hok & _); [split; [reflexivity|vm_compute; discriminate]|].
    destruct (Hok eq_refl) as (r' & Hr' & Hs & Ht & _ & Hsame).
    exists r'. split; [exact Hr'|]. split; [exact Hs|]. split; [exact Ht|].
    by destruct Hsame as (_ & _ & _ & -> & _).
  - destruct (C5_tick_delivery flaky 0
                (Reminder.mk 1 7 None "x" 1754999999000 1754999990000 pending
                   "in 9s" None None)) as [_ H].
    destruct (H eq_refl) as [_ Hdue].
    destruct Hdue as (_ & _ & Hfail);
      [split; [reflexivity|vm_compute; discriminate]|].
    destruct (Hfail eq_refl) as [Hkeep Hretry]. split; [exact Hkeep|].
    apply Hretry. vm_compute. discriminate.
Defined.

(** ** When a tick writes *)

(** C2, counterexample: one due reminder whose delivery fails. No status
    changes in the tick, and yet the tick writes the store. *)
Lemma C2_counterexample :
  Reminder.status <$> reminders (stored (tick stalled).2)
  = Reminder.status <$> reminders (stored stalled)
  ∧ writes (tick stalled).2 = S (writes stalled).
Proof. vm_compute. done. Qed.

(** C2, amended: a tick writes the store exactly once when at least one
    reminder was due at its clock reading (pending with [dueAt <= now]),
    whether or not a delivery succeeded, and not at all otherwise. So a tick
    that changes a status writes exactly once; a tick with nothing due writes
    nothing and leaves the file alone; a tick that changes no status leaves
    the content of the store unchanged; and a second tick at the same clock
    reading, after a tick whose deliveries all succeeded, writes nothing and
    leaves the file alone. *)
Theorem C2_tick_writes (w : World) :
  let now := clock w (reads w) in
  let rs := reminders (stored w) in
  let due := filter (isDue now) rs in
  let w' := (tick w).2 in
  let rs' := reminders (stored w') in
  writes w' = (writes w + if decide (due = []) then 0 else 1)%nat
  ∧ (Reminder.status <$> rs' ≠ Reminder.status <$> rs ->
     writes w' = S (writes w))
  ∧ (due = [] -> writes w' = writes w ∧ disk w' = disk w)
  ∧ (Reminder.status <$> rs' = Reminder.status <$> rs -> stored w' = stored w)
  ∧ ((forall k, (k < length due)%nat ->
                network w (length (outbox w) + k) = true) ->
     clock w (reads w') = now ->
     writes (tick w').2 = writes w' ∧ disk (tick w').2 = disk w').
Proof.
  cbv zeta.
  set (now := clock w (reads w)). set (rs := reminders (stored w)).
  pose proof (tick_writes w) as Hw. cbv zeta in Hw. fold now rs in Hw.
  pose proof (tick_stored w) as Hs. cbv zeta in Hs. fold now rs in Hs.
  split; [exact Hw|]. split; [|split; [|split]].
  - intros Hch. rewrite Hw. case_decide as Hf; [|lia].
    exfalso. apply Hch. rewrite Hs. cbn [reminders].
    by rewrite sweep_no_due.
  - intros Hf. split.
    + rewrite Hw, decide_True by done. lia.
    + by apply tick_disk_no_due.
  - intros Hsame. rewrite Hs in *. cbn [reminders] in Hsame.
    rewrite (sweep_status_same _ _ _ Hsame). subst rs. by destruct (stored w).
  - intros Hnet Hnow.
    pose proof (tick_settled w Hnet) as Hnone. cbv zeta in Hnone.
    destruct (tick_env w) as [(Hc & _ & _) _].
    assert (filter (isDue (clock (tick w).2 (reads (tick w).2)))
              (reminders (stored (tick w).2)) = []) as Hnone'
      by (by rewrite Hc, Hnow).
    split.
    + rewrite tick_writes, decide_True by done. lia.
    + by apply tick_disk_no_due.
Qed.

Lemma C2_tick_writes_witness :
  stored (tick stalled).2 = stored stalled
  ∧ writes (tick stalled).2 = S (writes stalled).
Proof.
  destruct (C2_tick_writes stalled) as (Hw & _ & _ & Hsame & _).
  split.
  - apply Hsame. vm_compute. reflexivity.
  - rewrite Hw. vm_compute. reflexivity.
Defined.

(** ** Terminal statuses *)

Lemma cmd_delete_eq chat id w :
  cmd_delete chat id w
  = if id =? 0 then (DeleteUsage, w)
    else match list_find
                 (fun x => Reminder.id x = id ∧ Reminder.chatId x = chat)
                 (reminders (stored w)) with
         | None => (NotFound, w)
         | Some (i, r) =>
             (Deleted id,
              (writeDB
                 {| lastId := lastId (stored w);
                    reminders := <[i := Reminder.markDeleted (clock w (reads w)) r]>
                                   (reminders (stored w)) |}
                 (Date_now w).2).2)
         end.
Proof.
  unfold cmd_delete. destruct (id =? 0); [done|].
  munfold. unfold readDB.
  change (match disk w with Some db => db | None => emptyDB end)
    with (stored w).
  by destruct (list_find _ _) as [[j x]|].
Qed.

Lemma cmd_delete_lookup chat id w i r r' :
  reminders (stored w) !! i = Some r ->
  reminders (stored (cmd_delete chat id w).2) !! i = Some r' ->
  r' = r
  ∨ (Reminder.id r = id ∧ Reminder.chatId r = chat
     ∧ r' = Reminder.markDeleted (clock w (reads w)) r).
Proof.
  intros Hi. rewrite cmd_delete_eq. destruct (id =? 0).
  { cbn [snd]. intros Hi'. left. congruence. }
  destruct (list_find _ (reminders (stored w))) as [[j x]|] eqn:Hfind.
  - apply list_find_Some in Hfind as (Hj & [Hid Hchat] & _).
    change (<[j := Reminder.markDeleted (clock w (reads w)) x]>
              (reminders (stored w)) !! i = Some r' ->
            r' = r
            ∨ (Reminder.id r = id ∧ Reminder.chatId r = chat
               ∧ r' = Reminder.markDeleted (clock w (reads w)) r)).
    destruct (decide (i = j)) as [->|Hne].
    + rewrite list_lookup_insert_eq by (by eapply lookup_lt_Some).
      intros [= <-]. right. rewrite Hi in Hj. injection Hj as <-. done.
    + rewrite list_lookup_insert_ne by done. intros Hi'. left. congruence.
  - cbn [snd]. intros Hi'. left. congruence.
Qed.

(** C1, counterexample: [/delete 1] from the owning chat turns a reminder
    that was [sent] into [deleted]. *)
Lemma C1_counterexample :
  Reminder.status <$> reminders (stored archived) = [sent]
  ∧ Reminder.status <$> reminders (stored (cmd_delete 7 1 archived).2)
    = [deleted].
Proof. vm_compute. done. Qed.

(** C1, amended: a tick leaves every reminder whose status is sent or
    deleted exactly as it is, and the only change a tick makes to a reminder
    is pending to sent. A delete call with a non-zero id addresses the first
    reminder that has the requested id and the requesting chat, whatever its
    status (pending, sent or already deleted): it confirms, sets the status
    of that reminder to deleted and its [deletedAt] to the clock reading of
    the call, and keeps its [sentAt] and its other fields. Every reminder
    it does not address is left as it is, and a call whose argument is not
    an integer changes nothing. *)
Theorem C1_terminal_status (w : World) (i : nat) (r : Reminder.t) :
  let rs := reminders (stored w) in
  rs !! i = Some r ->
  (Reminder.status r ≠ pending ->
   reminders (stored (tick w).2) !! i = Some r)
  ∧ (forall r', reminders (stored (tick w).2) !! i = Some r' ->
       r' = r ∨ (Reminder.status r = pending ∧ Reminder.status r' = sent))
  ∧ (forall chat id,
       let owned := fun x => Reminder.id x = id ∧ Reminder.chatId x = chat in
       let first := forall j y, (j < i)%nat -> rs !! j = Some y -> ¬ owned y in
       let rs' := reminders (stored (delete_handler chat (Integer id) w).2) in
       (id ≠ 0 -> owned r -> first ->
        (delete_handler chat (Integer id) w).1 = Deleted id
        ∧ exists r',
            rs' !! i = Some r'
            ∧ Reminder.status r' = deleted
            ∧ Reminder.deletedAt r' = Some (clock w (reads w))
            ∧ Reminder.sentAt r' = Reminder.sentAt r
            ∧ same_record r r')
       ∧ (id = 0 ∨ ¬ owned r ∨ ¬ first -> rs' !! i = Some r))
  ∧ (forall chat,
       (delete_handler chat NaN w).2 = w
       ∧ (delete_handler chat NotInteger w).2 = w).
Proof.
  cbv zeta. intros Hi.
  destruct (tick_lookup w i r Hi) as (j & Hj & Hlook).
  split; [|split; [|split]]; [| | |done].
  - intros Hterm. rewrite Hlook, decide_False; [done|]. by intros [? _].
  - intros r' Hr'. rewrite Hlook in Hr'. injection Hr' as <-.
    destruct (decide _) as [[Hp _]|]; [|by left].
    destruct (network _ _); [by right|by left].
  - intros chat id. cbn [delete_handler]. rewrite cmd_delete_eq. split.
    + intros Hid Hown Hfirst.
      destruct (Z.eqb_spec id 0) as [|_]; [done|].
      destruct (list_find _ _) as [[i0 r0]|] eqn:E.
      * apply list_find_Some in E as (Hi0 & Hown0 & Hmin).
        assert (i0 = i) as ->.
        { destruct (Nat.lt_trichotomy i0 i) as [Hlt|[->|Hgt]]; [|done|].
          - by destruct (Hfirst i0 r0 Hlt Hi0).
          - by destruct (Hmin i r Hi Hgt). }
        rewrite Hi in Hi0. injection Hi0 as <-.
        cbn [fst snd]. split; [done|].
        eexists. split.
        { unfold stored, readDB, writeDB. cbn [fst snd disk reminders].
          apply list_lookup_insert_eq. by eapply lookup_lt_Some. }
        by repeat split.
      * apply list_find_None in E.
        by destruct (proj1 (Forall_forall _ _) E r
                       (list_elem_of_lookup_2 _ _ _ Hi)).
    + intros Hnot.
      destruct (Z.eqb_spec id 0) as [|Hid]; [done|].
      destruct (list_find _ _) as [[i0 r0]|] eqn:E; [|done].
      apply list_find_Some in E as (Hi0 & Hown0 & Hmin).
      cbn [fst snd]. unfold stored at 1, readDB, writeDB.
      cbn [fst snd disk reminders].
      destruct (decide (i0 = i)) as [->|Hne].
      * rewrite Hi in Hi0. injection Hi0 as <-.
        destruct Hnot as [?|[Hn|Hn]]; [done|done|].
        exfalso. apply Hn. intros k y Hlt Hy. by apply (Hmin k y).
      * by rewrite list_lookup_insert_ne.
Qed.

Lemma C1_terminal_status_witness :
  reminders (stored (tick archived).2) !! 0%nat
  = Some (Reminder.mk 1 7 None "x" 1754999999000 1754999990000 sent "in 9s"
            (Some 1754999999500) None)
  ∧ (cmd_delete 7 1 archived).1 = Deleted 1
  ∧ (exists r',
       reminders (stored (cmd_delete 7 1 archived).2) !! 0%nat = Some r'
       ∧ Reminder.status r' = deleted
       ∧ Reminder.deletedAt r' = Some 1755000000000
       ∧ Reminder.sentAt r' = Some 1754999999500)
  ∧ reminders (stored (cmd_delete 8 1 archived).2) !! 0%nat
    = Some (Reminder.mk 1 7 None "x" 1754999999000 1754999990000 sent "in 9s"
              (Some 1754999999500) None).
Proof.
  destruct (C1_terminal_status archived 0
              (Reminder.mk 1 7 None "x" 1754999999000 1754999990000 sent
                 "in 9s" (Some 1754999999500) None) eq_refl)
    as (Htick & _ & Hdel & _).
  split; [apply Htick; simpl; discriminate|].
  destruct (Hdel 7 1) as [Hhit _].
  destruct Hhit as (Hrep & r' & Hr' & Hs & Hd & Hsa & _);
    [done|by split|intros k y Hlt; lia|].
  split; [exact Hrep|]. split; [by exists r'|].
  destruct (Hdel 8 1) as [_ Hmiss]. apply Hmiss.
  right; left. intros [_ Hc]. vm_compute in Hc. discriminate.
Defined.

(** ** Listing *)

Lemma insert_by_perm {A} (cmp : A -> A -> Z) x l :
  insert_by cmp x l ≡ₚ x :: l.
Proof.
  induction l as [|y l IH]; simpl; [done|].
  destruct (cmp x y <=? 0); [done|].
  rewrite IH. apply Permutation_swap.
Qed.

Lemma Array_sort_perm {A} (cmp : A -> A -> Z) l : Array_sort cmp l ≡ₚ l.
Proof.
  induction l as [|x l IH]; simpl; [done|].
  rewrite insert_by_perm. by rewrite IH.
Qed.

Lemma insert_by_sorted x l :
  StronglySorted dueOrder l -> StronglySorted dueOrder (insert_by byDueAt x l).
Proof.
  induction 1 as [|y l Hl IH Hy]; simpl.
  - repeat constructor.
  - destruct (byDueAt x y <=? 0) eqn:E.
    + apply Z.leb_le in E. unfold byDueAt in E.
      constructor; [by constructor|].
      constructor; [unfold dueOrder; lia|].
      eapply Forall_impl; [exact Hy|]. unfold dueOrder. intros; lia.
    + apply Z.leb_gt in E. unfold byDueAt in E.
      constructor; [done|].
      rewrite insert_by_perm. constructor; [unfold dueOrder; lia|done].
Qed.

Lemma Array_sort_sorted l : StronglySorted dueOrder (Array_sort byDueAt l).
Proof.
  induction l as [|x l IH]; simpl; [constructor|]. by apply insert_by_sorted.
Qed.

Lemma cmd_list_eq chat w :
  let items :=
    Array_sort byDueAt
      (filter (fun r => Reminder.chatId r = chat ∧ Reminder.status r = pending)
         (reminders (stored w))) in
  cmd_list chat w
  = (match items with [] => NoPending | _ :: _ => PendingList items end, w).
Proof.
  cbv zeta. unfold cmd_list. munfold. unfold readDB.
  change (match disk w with Some db => db | None => emptyDB end)
    with (stored w).
  by destruct (Array_sort _ _).
Qed.

(** C9: [/list] in a chat reads the store without changing the world and
    shows exactly the reminders of that chat whose status is pending (a
    permutation of them, each as often as it is stored), in ascending order
    of [dueAt]; it answers "No pending reminders" exactly when there are
    none. *)
Theorem C9_list_pending_sorted (w : World) (chat : Z) :
  let items := listed (cmd_list chat w).1 in
  let visible :=
    fun r => Reminder.chatId r = chat ∧ Reminder.status r = pending in
  (cmd_list chat w).2 = w
  ∧ items ≡ₚ filter visible (reminders (stored w))
  ∧ (forall r, r ∈ items <-> r ∈ reminders (stored w) ∧ visible r)
  ∧ StronglySorted dueOrder items
  ∧ ((cmd_list chat w).1 = NoPending <-> items = []).
Proof.
  cbv zeta. rewrite cmd_list_eq. cbn [fst snd].
  set (P := fun r => Reminder.chatId r = chat ∧ Reminder.status r = pending).
  set (items := Array_sort byDueAt (filter P (reminders (stored w)))).
  assert (listed (match items with [] => NoPending | _ :: _ => PendingList items end)
          = items) as Hl by (by destruct items).
  assert (items ≡ₚ filter P (reminders (stored w))) as Hperm
    by apply Array_sort_perm.
  rewrite Hl.
  split; [done|]. split; [done|]. split; [|split].
  - intros r. rewrite Hperm, list_elem_of_filter. unfold P. tauto.
  - apply Array_sort_sorted.
  - destruct items; split; done.
Qed.

Lemma C9_list_pending_sorted_witness :
  Reminder.mk 3 7 None "soon" 1755000300000 1754999990000 pending "in 5m"
    None None ∈ listed (cmd_list 7 crowded).1.
Proof.
  destruct (C9_list_pending_sorted crowded 7) as (_ & _ & Hmem & _).
  apply Hmem. split; [|done].
  apply list_elem_of_In. vm_compute. auto.
Defined.

(** ** Allocation of ids *)

Lemma parse_frame input w :
  disk (parseWhenAndText input w).2 = disk w
  ∧ writes (parseWhenAndText input w).2 = writes w
  ∧ outbox (parseWhenAndText input w).2 = outbox w.
Proof.
  unfold parseWhenAndText, orElse, parseInSyntax, parseAtSyntax,
    parseTomorrowSyntax.
  destruct (Regex.exec re_in (chars input)); [done|].
  destruct (Regex.exec re_at (chars input)); [done|].
  destruct (Regex.exec re_tomorrow (chars input)); done.
Qed.

Lemma create_cases chat user arg w :
  ((create chat user arg w).1 ∈ [CouldntParse; MissingText; PastDue]
   ∧ disk (create chat user arg w).2 = disk w
   ∧ writes (create chat user arg w).2 = writes w)
  ∨ (exists p t,
       (create chat user arg w).1
       = Created (lastId (stored w) + 1) (Parsed.dueAt p) (Parsed.text p)
       ∧ disk (create chat user arg w).2
         = Some {| lastId := lastId (stored w) + 1;
                   reminders := reminders (stored w)
                     ++ [Reminder.mk (lastId (stored w) + 1) chat user
                           (Parsed.text p) (Parsed.dueAt p) t pending
                           (Parsed.how p) None None] |}
       ∧ writes (create chat user arg w).2 = S (writes w)).
Proof.
  unfold create. munfold.
  destruct (parse_frame arg w) as (Hd & Hw & _).
  destruct (parseWhenAndText arg w) as [[p|] w1]; cbn [fst snd] in *.
  2:{ left. split; [set_solver|done]. }
  case_bool_decide.
  { left. split; [set_solver|done]. }
  cbn [Date_now]. case (Z.leb_spec (Parsed.dueAt p) (clock w1 (reads w1))); intros _.
  { left. cbn [fst snd disk writes]. split; [set_solver|done]. }
  right. exists p. eexists. cbn [readDB disk fst snd writeDB writes].
  unfold stored, readDB. cbn [fst]. rewrite <- Hd, Hw. done.
Qed.

Lemma stored_disk w db : disk w = Some db -> stored w = db.
Proof. unfold stored, readDB. by intros ->. Qed.

Lemma stored_same w w' : disk w' = disk w -> stored w' = stored w.
Proof. unfold stored, readDB. by intros ->. Qed.

Lemma dense_empty : dense emptyDB.
Proof. done. Qed.

(** What a command does to the ids of the store. *)
Lemma step_ids c w :
  dense (stored w) ->
  dense (stored (step c w).2)
  ∧ match created_id (step c w).1 with
    | Some id =>
        id = lastId (stored w) + 1
        ∧ length (reminders (stored (step c w).2))
          = S (length (reminders (stored w)))
    | None =>
        length (reminders (stored (step c w).2))
        = length (reminders (stored w))
    end.
Proof.
  intros [Hids Hlast]. destruct c as [chat user matched|chat|chat id|].
  - (* remind *)
    unfold step. munfold. unfold cmd_remind. case_bool_decide.
    { munfold. cbn [fst snd created_id]. done. }
    set (arg := str (trim (chars matched))).
    destruct (create_cases chat user arg w) as [(Hrep & Hd & _)|(p & t & Hrep & Hd & _)];
      destruct (create chat user arg w) as [rep w1]; cbn [fst snd] in *.
    + rewrite (stored_same _ _ Hd).
      split; [done|].
      apply list_elem_of_In in Hrep. simpl in Hrep.
      destruct Hrep as [<-|[<-|[<-|[]]]]; done.
    + rewrite (stored_disk _ _ Hd), Hrep. cbn [created_id reminders lastId].
      rewrite length_app. cbn [length]. split; [|split; [done|lia]].
      split; cbn [reminders lastId].
      * rewrite fmap_app, Hids, length_app. cbn [length].
        rewrite Nat.add_1_r, seq_S, fmap_app. cbn [fmap list_fmap].
        do 2 f_equal. rewrite Hlast. cbn [Reminder.id]. lia.
      * rewrite length_app, Hlast. cbn [length]. lia.
  - (* list *)
    unfold step. munfold. rewrite cmd_list_eq. cbn [fst snd].
    by destruct (Array_sort _ _).
  - (* delete *)
    unfold step. munfold.
    assert (created_id (Some (cmd_delete chat id w).1) = None
            ∧ Reminder.id <$> reminders (stored (cmd_delete chat id w).2)
              = Reminder.id <$> reminders (stored w)
            ∧ lastId (stored (cmd_delete chat id w).2) = lastId (stored w))
      as (Hc & Hi & Hl).
    { rewrite cmd_delete_eq. destruct (id =? 0); [done|].
      destruct (list_find _ (reminders (stored w))) as [[j x]|] eqn:Hfind;
        [|done].
      apply list_find_Some in Hfind as (Hj & _ & _).
      split; [done|]. split; [|done].
      change (Reminder.id <$> <[j := Reminder.markDeleted (clock w (reads w)) x]>
                                (reminders (stored w))
              = Reminder.id <$> reminders (stored w)).
      rewrite list_fmap_insert. apply list_insert_id.
      rewrite list_lookup_fmap, Hj. done. }
    destruct (cmd_delete chat id w) as [rep w1]. cbn [fst snd] in *.
    rewrite Hc.
    assert (length (reminders (stored w1)) = length (reminders (stored w)))
      as Hlen.
    { rewrite <- (length_fmap Reminder.id), Hi. apply length_fmap. }
    split; [|done]. split; [by rewrite Hi, Hlen|by rewrite Hl, Hlen].
  - (* tick *)
    unfold step. munfold.
    pose proof (tick_stored w) as Hs. cbv zeta in Hs.
    destruct (tick w) as [[] w1]. cbn [fst snd created_id] in *.
    rewrite Hs. cbn [reminders lastId].
    destruct (sweep_frame (clock w (reads w)) (reminders (stored w))
                (Date_now w).2) as (_ & _ & _ & _ & _ & Hlen).
    rewrite Hlen. split; [|done].
    split; cbn [reminders lastId]; [by rewrite sweep_ids, Hlen|by rewrite Hlen].
Qed.

Lemma run_cons c cs w :
  run (c :: cs) w
  = ((step c w).1 :: (run cs (step c w).2).1, (run cs (step c w).2).2).
Proof.
  cbn [run]. munfold. destruct (step c w) as [rep w1]. cbn [fst snd].
  by destruct (run cs w1).
Qed.

Lemma run_ids cs : forall w,
  dense (stored w) ->
  let n := length (reminders (stored w)) in
  let ids := created (run cs w).1 in
  dense (stored (run cs w).2)
  ∧ ids = Z.of_nat <$> seq (S n) (length ids)
  ∧ length (reminders (stored (run cs w).2)) = (n + length ids)%nat.
Proof.
  induction cs as [|c cs IH]; intros w Hw; cbv zeta.
  - cbn. repeat split; try apply Hw. lia.
  - rewrite run_cons. cbn [fst snd].
    destruct (step_ids c w Hw) as [Hw1 Hc].
    destruct (IH _ Hw1) as (Hd & Hids & Hlen). cbv zeta in Hids, Hlen.
    split; [done|].
    unfold created in *. cbn [omap list_omap].
    destruct (created_id (step c w).1) as [id|].
    + destruct Hc as [-> Hn]. rewrite Hn in Hids, Hlen.
      cbn [length seq fmap list_fmap]. split; [|lia].
      f_equal; [|done]. destruct Hw as [_ ->]. lia.
    + rewrite Hc in Hids, Hlen. done.
Qed.

Lemma foldr_max_bound l m :
  Forall (fun x => x <= m) l -> foldr Z.max m l = m.
Proof. induction 1 as [|x l Hx _ IH]; simpl; [done|]. rewrite IH. lia. Qed.

Lemma max_upto n : foldr Z.max 0 (Z.of_nat <$> seq 1 n) = Z.of_nat n.
Proof.
  destruct n as [|n]; [done|].
  rewrite seq_S, fmap_app, foldr_app. cbn [fmap list_fmap foldr].
  rewrite Z.max_l by lia. rewrite foldr_max_bound; [done|].
  apply Forall_fmap, Forall_seq. intros j Hj. simpl. lia.
Qed.

(** C6: starting from an empty store, in any sequence of commands and ticks
    the ids assigned by the successful creations are 1, 2, ..., N in the
    order of the calls, whatever grammar parsed each request; the ids in the
    store are those ids, and [lastId] is N, the largest id assigned (0 when
    none was). As this holds for every sequence, it holds after every
    operation. *)
Theorem C6_monotonic_ids (cs : list Command) (w : World) :
  stored w = emptyDB ->
  let ids := created (run cs w).1 in
  let db' := stored (run cs w).2 in
  ids = Z.of_nat <$> seq 1 (length ids)
  ∧ Reminder.id <$> reminders db' = ids
  ∧ lastId db' = Z.of_nat (length ids)
  ∧ lastId db' = foldr Z.max 0 ids.
Proof.
  intros Hempty. cbv zeta.
  assert (dense (stored w)) as Hw by (rewrite Hempty; apply dense_empty).
  destruct (run_ids cs w Hw) as ([Hids Hlast] & Hcreated & Hlen).
  cbv zeta in Hcreated, Hlen. rewrite Hempty in Hcreated, Hlen.
  cbn [emptyDB reminders length] in Hcreated, Hlen.
  rewrite Nat.add_0_l in Hlen.
  split; [done|]. split; [|split].
  - rewrite Hids, Hlen. done.
  - by rewrite Hlast, Hlen.
  - rewrite Hlast, Hlen. rewrite Hcreated at 2. by rewrite max_upto.
Qed.

Lemma C6_monotonic_ids_witness :
  created (run [Remind 7 None "in 10m Buy milk"; Tick; Remind 7 None "nope";
                Remind 8 (Some 3) "tomorrow 09:00 Standup"; Delete 7 1;
                Remind 7 None "at 2030-01-01 10:00 New year"] initial).1
  = [1; 2; 3].
Proof.
  pose proof (C6_monotonic_ids
    [Remind 7 None "in 10m Buy milk"; Tick; Remind 7 None "nope";
     Remind 8 (Some 3) "tomorrow 09:00 Standup"; Delete 7 1;
     Remind 7 None "at 2030-01-01 10:00 New year"] initial eq_refl) as H.
  cbv zeta in H. destruct H as [H _].
  rewrite H. vm_compute. reflexivity.
Defined.

(** ** The three patterns are disjoint *)

Lemma exec_in_other x s :
  Char.isChar "i" x = false -> Regex.exec re_in (x :: s) = None.
Proof.
  intros Hx. unfold re_in. cbn [Regex.chain]. rewrite exec_anchored.
  rewrite rmatch_Seq.
  change (lit "in") with (Seq (Class (Char.isChar "i")) (Class (Char.isChar "n"))).
  rewrite rmatch_Seq. by apply rmatch_class_stops.
Qed.

Lemma first_chars_differ x :
  (Char.isChar "i" x = true -> Char.isChar "a" x = false ∧ Char.isChar "t" x = false)
  ∧ (Char.isChar "a" x = true -> Char.isChar "i" x = false ∧ Char.isChar "t" x = false)
  ∧ (Char.isChar "t" x = true -> Char.isChar "i" x = false ∧ Char.isChar "a" x = false).
Proof.
  destruct x as [[] [] [] [] [] [] [] []]; vm_compute; intuition congruence.
Qed.

(** At most one of the three patterns matches a text, so the order in which
    [parseWhenAndText] tries the parsers never decides the result. *)
Lemma patterns_exclusive (input : string) :
  (is_Some (Regex.exec re_in (chars input)) ->
   Regex.exec re_at (chars input) = None
   ∧ Regex.exec re_tomorrow (chars input) = None)
  ∧ (is_Some (Regex.exec re_at (chars input)) ->
     Regex.exec re_in (chars input) = None
     ∧ Regex.exec re_tomorrow (chars input) = None)
  ∧ (is_Some (Regex.exec re_tomorrow (chars input)) ->
     Regex.exec re_in (chars input) = None
     ∧ Regex.exec re_at (chars input) = None).
Proof.
  destruct (chars input) as [|x s].
  { split; [|split]; intros [m Hm]; vm_compute in Hm; discriminate. }
  destruct (first_chars_differ x) as (Hi & Ha & Ht).
  split; [|split]; intros [m Hm].
  - destruct (Char.isChar "i" x) eqn:Ei;
      [|by rewrite exec_in_other in Hm].
    destruct Hi as [Ha' Ht']; [done|].
    split; [by apply exec_at_other|by apply exec_tomorrow_other].
  - destruct (Char.isChar "a" x) eqn:Ea;
      [|by rewrite exec_at_other in Hm].
    destruct Ha as [Hi' Ht']; [done|].
    split; [by apply exec_in_other|by apply exec_tomorrow_other].
  - destruct (Char.isChar "t" x) eqn:Et;
      [|by rewrite exec_tomorrow_other in Hm].
    destruct Ht as [Hi' Ha']; [done|].
    split; [by apply exec_in_other|by apply exec_at_other].
Qed.

Lemma parseIn_Some_iff input w :
  is_Some (parseInSyntax input w).1 <-> is_Some (Regex.exec re_in (chars input)).
Proof.
  unfold parseInSyntax. destruct (Regex.exec re_in (chars input)); simpl.
  - split; eauto.
  - split; intros [? ?]; done.
Qed.

Lemma parseAt_Some_iff input w :
  is_Some (parseAtSyntax input w).1 <-> is_Some (Regex.exec re_at (chars input)).
Proof.
  unfold parseAtSyntax. destruct (Regex.exec re_at (chars input)); simpl.
  - split; eauto.
  - split; intros [? ?]; done.
Qed.

Lemma parseTomorrow_Some_iff input w :
  is_Some (parseTomorrowSyntax input w).1
  <-> is_Some (Regex.exec re_tomorrow (chars input)).
Proof.
  unfold parseTomorrowSyntax.
  destruct (Regex.exec re_tomorrow (chars input)); simpl.
  - split; eauto.
  - split; intros [? ?]; done.
Qed.

(** The three grammars do not overlap: on every text at most one parser
    matches, and [parseWhenAndText] returns what that parser returns. *)
Theorem grammars_exclusive (input : string) (w : World) :
  (is_Some (parseInSyntax input w).1 ->
   (parseAtSyntax input w).1 = None ∧ (parseTomorrowSyntax input w).1 = None
   ∧ parseWhenAndText input w = parseInSyntax input w)
  ∧ (is_Some (parseAtSyntax input w).1 ->
     (parseInSyntax input w).1 = None ∧ (parseTomorrowSyntax input w).1 = None
     ∧ parseWhenAndText input w = parseAtSyntax input w)
  ∧ (is_Some (parseTomorrowSyntax input w).1 ->
     (parseInSyntax input w).1 = None ∧ (parseAtSyntax input w).1 = None
     ∧ parseWhenAndText input w = parseTomorrowSyntax input w).
Proof.
  destruct (patterns_exclusive input) as (Hi & Ha & Ht).
  split; [|split]; intros Hm.
  - apply parseIn_Some_iff in Hm. destruct (Hi Hm) as [Eat Etm].
    unfold parseWhenAndText, orElse, parseInSyntax, parseAtSyntax,
      parseTomorrowSyntax.
    rewrite Eat, Etm. destruct Hm as [m ->]. done.
  - apply parseAt_Some_iff in Hm. destruct (Ha Hm) as [Ein Etm].
    unfold parseWhenAndText, orElse, parseInSyntax, parseAtSyntax,
      parseTomorrowSyntax.
    rewrite Ein, Etm. destruct Hm as [m ->]. done.
  - apply parseTomorrow_Some_iff in Hm. destruct (Ht Hm) as [Ein Eat].
    unfold parseWhenAndText, orElse, parseInSyntax, parseAtSyntax,
      parseTomorrowSyntax.
    rewrite Ein, Eat. destruct Hm as [m ->]. done.
Qed.

(** ** The [i] flag *)

Lemma rmatch_ext input input' r :
  length input = length input' ->
  forall k k', (forall s c, k s c = k' s c) ->
  forall s c, rmatch input r k s c = rmatch input' r k' s c.
Proof.
  intros Hlen.
  induction r as [| | |p|r1 IH1 r2 IH2|r IH|r IH|n r IH]; intros k k' Hk s c;
    cbn [rmatch].
  - apply Hk.
  - rewrite Hlen. by rewrite Hk.
  - destruct s; [apply Hk|done].
  - destruct s as [|x s]; [done|]. by rewrite Hk.
  - apply IH1. intros s' c'. by apply IH2.
  - rewrite (IH k k' Hk), Hk. done.
  - generalize (length s) as fuel. intros fuel. revert s c.
    induction fuel as [|fuel IHf]; intros s c; simpl; [apply Hk|].
    rewrite Hk.
    erewrite IH; [reflexivity|].
    intros s' c'. simpl. case_decide; [apply IHf|done].
  - apply IH. intros s' c'. apply Hk.
Qed.

Lemma isChar_canon p a b :
  Char.canonicalize a = Char.canonicalize b -> Char.isChar p a = Char.isChar p b.
Proof. unfold Char.isChar. by intros ->. Qed.

(** A pattern that starts with [^] and a keyword reads a text by the
    canonical form of the characters the keyword covers. *)
Lemma exec_keyword_case (K a rest : list ascii) (tail : Regex.t) :
  K ≠ [] ->
  Forall2 (fun x y => Char.canonicalize x = Char.canonicalize y) a K ->
  Regex.exec (Seq Bos (Seq (Regex.chain (map (fun p => Class (Char.isChar p)) K)) tail))
    (a ++ rest)
  = Regex.exec (Seq Bos (Seq (Regex.chain (map (fun p => Class (Char.isChar p)) K)) tail))
      (K ++ rest).
Proof.
  intros HK Hcase. rewrite !exec_anchored, !rmatch_Seq.
  assert (forall k k', (forall s c, k s c = k' s c) ->
          forall c,
          rmatch (a ++ rest)
            (Regex.chain (map (fun p => Class (Char.isChar p)) K)) k (a ++ rest) c
          = rmatch (K ++ rest)
              (Regex.chain (map (fun p => Class (Char.isChar p)) K)) k' (K ++ rest) c)
    as Hgo.
  { generalize (a ++ rest) at 1 as input. generalize (K ++ rest) at 1 as input'.
    intros input' input.
    induction Hcase as [|x y a K Hxy Hcase IH]; [done|]. clear HK.
    intros k k' Hk c.
    destruct K as [|y' K].
    - inversion Hcase; subst. cbn [map Regex.chain app rmatch].
      rewrite (isChar_canon y x y Hxy). by rewrite Hk.
    - cbn [map Regex.chain]. cbn [map] in IH.
      rewrite !rmatch_Seq. cbn [app rmatch].
      rewrite (isChar_canon y x y Hxy).
      destruct (Char.isChar y y); [|done].
      apply IH; done. }
  apply Hgo. intros s c. apply rmatch_ext.
  - rewrite !length_app. f_equal. by eapply Forall2_length.
  - done.
Qed.

Lemma exec_case_in a rest :
  Forall2 (fun x y => Char.canonicalize x = Char.canonicalize y) a (chars "in") ->
  Regex.exec re_in (a ++ rest) = Regex.exec re_in (chars "in" ++ rest).
Proof. intros H. by apply (exec_keyword_case (chars "in")). Qed.

Lemma exec_case_at a rest :
  Forall2 (fun x y => Char.canonicalize x = Char.canonicalize y) a (chars "at") ->
  Regex.exec re_at (a ++ rest) = Regex.exec re_at (chars "at" ++ rest).
Proof. intros H. by apply (exec_keyword_case (chars "at")). Qed.

Lemma exec_case_tomorrow a rest :
  Forall2 (fun x y => Char.canonicalize x = Char.canonicalize y) a
    (chars "tomorrow") ->
  Regex.exec re_tomorrow (a ++ rest)
  = Regex.exec re_tomorrow (chars "tomorrow" ++ rest).
Proof. intros H. by apply (exec_keyword_case (chars "tomorrow")). Qed.

(** The keywords are matched whatever their case: a text that starts with
    [in], [at] or [tomorrow] in any mix of upper and lower case parses as
    the same text with the keyword in lower case. *)
Theorem keyword_case (keyword : string) (a rest : list ascii) (w : World) :
  keyword ∈ ["in"; "at"; "tomorrow"]%string ->
  Forall2 (fun x y => Char.canonicalize x = Char.canonicalize y)
    a (chars keyword) ->
  parseWhenAndText (str (a ++ rest)) w
  = parseWhenAndText (str (chars keyword ++ rest)) w.
Proof.
  intros Hkw Hcase.
  assert (Regex.exec re_in (a ++ rest) = Regex.exec re_in (chars keyword ++ rest)
          ∧ Regex.exec re_at (a ++ rest) = Regex.exec re_at (chars keyword ++ rest)
          ∧ Regex.exec re_tomorrow (a ++ rest)
            = Regex.exec re_tomorrow (chars keyword ++ rest)) as (Ein & Eat & Etm).
  { apply list_elem_of_In in Hkw. simpl in Hkw.
    destruct Hkw as [<-|[<-|[<-|[]]]];
      (destruct a as [|x a]; [by inversion Hcase|]);
      pose proof Hcase as Hcase';
      apply Forall2_cons_1 in Hcase' as [Hx _];
      cbn [chars list_ascii_of_string app] in *.
    - split; [by apply (exec_case_in (x :: a))|].
      rewrite !exec_at_other, !exec_tomorrow_other;
        try done; by rewrite (isChar_canon _ _ _ Hx).
    - split; [|split; [by apply (exec_case_at (x :: a))|]].
      + rewrite !exec_in_other; try done; by rewrite (isChar_canon _ _ _ Hx).
      + rewrite !exec_tomorrow_other; try done;
          by rewrite (isChar_canon _ _ _ Hx).
    - split; [|split; [|by apply (exec_case_tomorrow (x :: a))]].
      + rewrite !exec_in_other; try done; by rewrite (isChar_canon _ _ _ Hx).
      + rewrite !exec_at_other; try done; by rewrite (isChar_canon _ _ _ Hx). }
  unfold parseWhenAndText, orElse, parseInSyntax, parseAtSyntax,
    parseTomorrowSyntax.
  rewrite !chars_str, Ein, Eat, Etm. done.
Qed.

Lemma keyword_case_witness :
  parseWhenAndText "ToMoRRoW 9:05 Standup" initial
  = parseWhenAndText "tomorrow 9:05 Standup" initial.
Proof.
  apply (keyword_case "tomorrow" (chars "ToMoRRoW") (chars " 9:05 Standup")
           initial).
  - apply list_elem_of_In. simpl. auto.
  - repeat constructor.
Defined.

(** ** The relative grammar with a unit *)

Lemma unit_not_space c :
  Char.isOneOf (chars "smhd") c = true -> Char.isSpace c = false.
Proof. destruct c as [[] [] [] [] [] [] [] []]; vm_compute; congruence. Qed.

Lemma rmatch_Opt_take input r k s c res :
  rmatch input r k s c = Some res -> rmatch input (Opt r) k s c = Some res.
Proof. simpl. by intros ->. Qed.

Lemma exec_in_unit sp ds sp1 u sp2 c rest :
  sp <> [] -> Forall (fun x => Char.isSpace x = true) sp ->
  ds <> [] -> Forall (fun x => Char.isDigit x = true) ds ->
  Forall (fun x => Char.isSpace x = true) sp1 ->
  Char.isOneOf (chars "smhd") u = true ->
  sp2 <> [] -> Forall (fun x => Char.isSpace x = true) sp2 ->
  Char.isSpace c = false ->
  Forall (fun x => Char.isDot x = true) (c :: rest) ->
  Regex.exec re_in (chars "in" ++ sp ++ ds ++ sp1 ++ u :: sp2 ++ c :: rest)
  = Some (<[3%nat := c :: rest]> (<[2%nat := [u]]> (<[1%nat := ds]> ∅))).
Proof.
  intros Hsp Fsp Hds Fds Fsp1 Hu Hsp2 Fsp2 Hc Fdot.
  unfold re_in, ws, digit, dot. cbn [Regex.chain]. rewrite exec_anchored.
  generalize (chars "in" ++ sp ++ ds ++ sp1 ++ u :: sp2 ++ c :: rest) at 1.
  intros input.
  destruct sp as [|y sp]; [done|]. inversion_clear Fsp as [|?? Hy Fsp'].
  destruct ds as [|d ds]; [done|]. inversion_clear Fds as [|?? Hd Fds'].
  destruct sp2 as [|z sp2]; [done|]. inversion_clear Fsp2 as [|?? Hz Fsp2'].
  inversion_clear Fdot as [|?? Hcd Frest].
  rewrite rmatch_Seq.
  change (lit "in") with (Seq (Class (Char.isChar "i")) (Class (Char.isChar "n"))).
  change (chars "in" ++ ?l) with ("i"%char :: "n"%char :: l).
  rewrite rmatch_Seq, rmatch_class_true by done.
  rewrite rmatch_class_true by done.
  (* \s+ *)
  rewrite rmatch_Seq.
  change ((y :: sp) ++ ?l) with (y :: sp ++ l).
  rewrite rmatch_plus_class; [|done|done|by simpl; apply digit_not_space].
  apply backoff_rest.
  (* (\d+) *)
  rewrite rmatch_Seq, rmatch_Group.
  change ((d :: ds) ++ ?l) with (d :: ds ++ l).
  rewrite rmatch_plus_class; [|done|done|].
  2:{ destruct sp1; simpl.
      - destruct (Char.isDigit u) eqn:E; [|done].
        apply digit_not_unit in E. congruence.
      - apply space_not_digit. by inversion Fsp1. }
  apply backoff_rest.
  change (d :: ds ++ ?l) with ((d :: ds) ++ l). rewrite take_run.
  (* \s* *)
  rewrite rmatch_Seq.
  rewrite rmatch_star_class; [|done|by simpl; apply unit_not_space].
  apply backoff_rest.
  (* ([smhd])? *)
  rewrite rmatch_Seq. apply rmatch_Opt_take.
  rewrite rmatch_Group, rmatch_class_true by done.
  change (u :: ?l) with ([u] ++ l) at 1 2. rewrite take_run.
  (* \s+ *)
  rewrite rmatch_Seq.
  change ((z :: sp2) ++ ?l) with (z :: sp2 ++ l).
  rewrite rmatch_plus_class; [|done|done|done].
  apply backoff_rest.
  (* (.+)$ *)
  rewrite rmatch_Seq, rmatch_Group.
  rewrite <- (app_nil_r rest) at 1.
  rewrite rmatch_plus_class; [|done|done|done].
  apply backoff_rest. rewrite rmatch_Eos_nil. unfold accept.
  by rewrite take_ge by (simpl; lia).
Qed.

Lemma lower_unit u unit :
  unit ∈ chars "smhd" -> Char.toLowerCase u = unit ->
  Char.isOneOf (chars "smhd") u = true.
Proof.
  intros Hin. apply list_elem_of_In in Hin. simpl in Hin.
  destruct Hin as [<-|[<-|[<-|[<-|[]]]]];
    destruct u as [[] [] [] [] [] [] [] []]; vm_compute; congruence.
Qed.

(** The relative grammar on its general form: [in], white space, an amount of
    digits, optional white space, a unit letter s, m, h or d in either case,
    white space and a text without line break. The reminder is due the
    amount times 1000, 60000, 3600000 or 86400000 milliseconds after the
    clock reading the parser takes; the descriptor shows the amount without
    leading zeros and the unit in lower case; the text is trimmed. The
    numbers stay within the integers a JavaScript number holds exactly. *)
Theorem parse_in_unit (sp ds sp1 : list ascii) (u : ascii) (sp2 : list ascii)
    (c : ascii) (rest : list ascii) (unit : ascii) (ms : Z) (w : World) :
  (unit, ms) ∈ [("s"%char, 1000); ("m"%char, 60000); ("h"%char, 3600000);
                ("d"%char, 86400000)] ->
  Char.toLowerCase u = unit ->
  sp <> [] -> Forall (fun x => Char.isSpace x = true) sp ->
  ds <> [] -> Forall (fun x => Char.isDigit x = true) ds ->
  Forall (fun x => Char.isSpace x = true) sp1 ->
  sp2 <> [] -> Forall (fun x => Char.isSpace x = true) sp2 ->
  Char.isSpace c = false ->
  Forall (fun x => Char.isDot x = true) (c :: rest) ->
  0 <= clock w (reads w) ->
  clock w (reads w) + Number_of_digits ds * ms <= 9007199254740991 ->
  parseWhenAndText
    (str (chars "in" ++ sp ++ ds ++ sp1 ++ u :: sp2 ++ c :: rest)) w
  = (Some (Parsed.mk (clock w (reads w) + Number_of_digits ds * ms)
             (str (trim (c :: rest)))
             ("in " ++ Number_toString (Number_of_digits ds) ++ str [unit])),
     (Date_now w).2).
Proof.
  intros Htab Hlow Hsp Fsp Hds Fds Fsp1 Hsp2 Fsp2 Hc Fdot _ _.
  assert (Char.isOneOf (chars "smhd") u = true) as Hu.
  { apply (lower_unit u unit); [|done].
    apply list_elem_of_In in Htab. simpl in Htab.
    destruct Htab as [[= <- _]|[[= <- _]|[[= <- _]|[[= <- _]|[]]]]];
      apply list_elem_of_In; simpl; auto. }
  unfold parseWhenAndText, orElse, parseInSyntax.
  rewrite chars_str, exec_in_unit by done.
  unfold group. rewrite lookup_insert_ne, lookup_insert_ne, lookup_insert_eq by done.
  rewrite lookup_insert_ne, lookup_insert_eq by done.
  rewrite lookup_insert_eq.
  cbn [toLowerCase map default]. rewrite Hlow.
  assert (multipliers !! str [unit] = Some ms) as ->.
  { apply list_elem_of_In in Htab. simpl in Htab.
    destruct Htab as [[= <- <-]|[[= <- <-]|[[= <- <-]|[[= <- <-]|[]]]]];
      vm_compute; reflexivity. }
  done.
Qed.

Lemma parse_in_unit_witness :
  parseWhenAndText "in 007 H  Call mom" initial
  = (Some (Parsed.mk (1755000000000 + 7 * 3600000) "Call mom" "in 7h"),
     (Date_now initial).2).
Proof.
  apply (parse_in_unit (chars " ") (chars "007") (chars " ") "H" (chars "  ")
           "C" (chars "all mom") "h" 3600000 initial).
  - apply list_elem_of_In. simpl. auto.
  - reflexivity.
  - done.
  - repeat constructor.
  - done.
  - repeat constructor.
  - repeat constructor.
  - done.
  - repeat constructor.
  - reflexivity.
  - repeat constructor.
  - done.
  - done.
Defined.

(** ** The text of a match *)

Lemma repeat_greedy_class_run input p k fuel : forall s c res,
  repeat_greedy (rmatch input (Class p)) k fuel s c = Some res ->
  exists pre s', s = pre ++ s' ∧ Forall (fun x => p x = true) pre
                 ∧ k s' c = Some res.
Proof.
  induction fuel as [|fuel IH]; intros s c res H; simpl in H.
  - exists [], s. done.
  - destruct s as [|x s]; [exists [], []; done|].
    destruct (p x) eqn:Hx; [|exists [], (x :: s); done].
    case_decide; [|exists [], (x :: s); done].
    destruct (repeat_greedy _ k fuel s c) eqn:E.
    + injection H as ->. apply IH in E as (pre & s' & -> & Hpre & Hk).
      exists (x :: pre), s'. split; [done|]. split; [by constructor|done].
    + exists [], (x :: s). done.
Qed.

Lemma rmatch_plus_class_run input p k s c res :
  rmatch input (Plus (Class p)) k s c = Some res ->
  exists pre s', s = pre ++ s' ∧ pre ≠ [] ∧ Forall (fun x => p x = true) pre
                 ∧ k s' c = Some res.
Proof.
  unfold Plus. rewrite rmatch_Seq. intros H.
  destruct s as [|x s]; [done|]. cbn [rmatch] in H.
  destruct (p x) eqn:Hx; [|done].
  apply (repeat_greedy_class_run input) in H as (pre & s' & -> & Hpre & Hk).
  exists (x :: pre), s'. split; [done|]. split; [done|].
  split; [by constructor|done].
Qed.

(** In a pattern that ends with [(.+)$] as its [n]-th group, the group of a
    match is a non-empty end of the input without line terminator. *)
Lemma text_group_dots input pre n res :
  rmatch input (Seq pre (Seq (Group n (Plus (Class Char.isDot))) Eos))
    Regex.accept input ∅ = Some res ->
  exists t, t ≠ [] ∧ t `suffix_of` input
            ∧ Forall (fun x => Char.isDot x = true) t ∧ res !! n = Some t.
Proof.
  intros H. rewrite rmatch_Seq in H.
  apply rmatch_through in H as (s1 & c1 & Hs1 & H).
  rewrite rmatch_Seq, rmatch_Group in H.
  apply rmatch_plus_class_run in H as (t & s' & -> & Ht & Hdots & H).
  destruct s'; [|done]. unfold Regex.accept in H. cbn in H.
  injection H as <-. rewrite app_nil_r in *.
  exists t. repeat split; try done.
  rewrite lookup_insert_eq. f_equal. apply take_ge. simpl. lia.
Qed.

Lemma trimStart_suffix l : trimStart l `suffix_of` l.
Proof.
  induction l as [|x l IH]; simpl; [done|].
  destruct (Char.isSpace x); [by apply suffix_cons_r|done].
Qed.

Lemma trimStart_stops l : stops Char.isSpace (trimStart l).
Proof.
  induction l as [|x l IH]; simpl; [done|].
  destruct (Char.isSpace x) eqn:E; [done|]. simpl. done.
Qed.

Lemma trimStart_id l : stops Char.isSpace l -> trimStart l = l.
Proof. destruct l as [|x l]; simpl; [done|]. by intros ->. Qed.

Lemma trim_Forall (P : ascii -> Prop) l : Forall P l -> Forall P (trim l).
Proof.
  intros H. unfold trim. apply Forall_rev.
  destruct (trimStart_suffix (rev (trimStart l))) as [pre Hpre].
  assert (Forall P (rev (trimStart l))) as H'.
  { apply Forall_rev. destruct (trimStart_suffix l) as [pre' Hpre'].
    rewrite Hpre' in H. by apply Forall_app in H as [_ H]. }
  rewrite Hpre in H'. by apply Forall_app in H' as [_ H'].
Qed.

Lemma trim_idem l : trim (trim l) = trim l.
Proof.
  unfold trim at 2 3.
  set (a := trimStart l). set (b := trimStart (rev a)).
  assert (stops Char.isSpace (rev b)) as Hrb.
  { destruct (trimStart_suffix (rev a)) as [pre Hpre]. fold b in Hpre.
    apply (f_equal (@rev ascii)) in Hpre.
    rewrite rev_involutive, rev_app_distr in Hpre.
    pose proof (trimStart_stops l) as Ha. fold a in Ha. rewrite Hpre in Ha.
    destruct (rev b); [done|]. done. }
  unfold trim. rewrite (trimStart_id _ Hrb), rev_involutive.
  rewrite trimStart_id; [done|]. apply trimStart_stops.
Qed.

(** Whatever grammar matched, the text of the match has no line terminator
    in it and no white space at either end. *)
Theorem parsed_text_clean (input : string) (w : World) (p : Parsed.t) :
  (parseWhenAndText input w).1 = Some p ->
  Forall (fun x => Char.isLineTerminator x = false) (chars (Parsed.text p))
  ∧ trim (chars (Parsed.text p)) = chars (Parsed.text p).
Proof.
  assert (forall t, Forall (fun x => Char.isDot x = true) t ->
    Forall (fun x => Char.isLineTerminator x = false) (chars (str (trim t)))
    ∧ trim (chars (str (trim t))) = chars (str (trim t))) as Hclean.
  { intros t Ht. rewrite chars_str. split; [|apply trim_idem].
    apply trim_Forall. eapply Forall_impl; [exact Ht|].
    intros x. unfold Char.isDot. by destruct (Char.isLineTerminator x). }
  unfold parseWhenAndText, orElse, parseInSyntax, parseAtSyntax,
    parseTomorrowSyntax.
  destruct (Regex.exec re_in (chars input)) as [m|] eqn:Ein.
  { unfold re_in, ws, digit, dot in Ein. cbn [Regex.chain] in Ein.
    rewrite exec_anchored in Ein.
    apply (text_group_dots (chars input)
             (Seq (lit "in") (Seq (Plus (Class Char.isSpace))
               (Seq (Group 1 (Plus (Class Char.isDigit)))
                 (Seq (Star (Class Char.isSpace))
                   (Seq (Opt (Group 2 (Class (Char.isOneOf (chars "smhd")))))
                      (Plus (Class Char.isSpace)))))))) in Ein
      as (t & _ & _ & Hdots & Hm).
    cbn. intros [= <-]. cbn [Parsed.text]. unfold group. rewrite Hm.
    by apply Hclean. }
  destruct (Regex.exec re_at (chars input)) as [m|] eqn:Eat.
  { unfold re_at, ws, digit, dot in Eat. cbn [Regex.chain] in Eat.
    rewrite exec_anchored in Eat.
    apply (text_group_dots (chars input)
             (Seq (lit "at") (Seq (Plus (Class Char.isSpace))
               (Seq (Group 1 (Regex.chain [Times 4 (Class Char.isDigit); lit "-";
                                 Times 2 (Class Char.isDigit); lit "-";
                                 Times 2 (Class Char.isDigit)]))
                 (Seq (Plus (Class Char.isSpace))
                   (Seq (Group 2 (Seq (Class Char.isDigit) (Opt (Class Char.isDigit))))
                     (Seq (lit ":")
                       (Seq (Group 3 (Times 2 (Class Char.isDigit)))
                          (Plus (Class Char.isSpace)))))))))) in Eat
      as (t & _ & _ & Hdots & Hm).
    cbn. intros [= <-]. cbn [Parsed.text]. unfold group. rewrite Hm.
    by apply Hclean. }
  destruct (Regex.exec re_tomorrow (chars input)) as [m|] eqn:Etm; [|done].
  unfold re_tomorrow, ws, digit, dot in Etm. cbn [Regex.chain] in Etm.
  rewrite exec_anchored in Etm.
  apply (text_group_dots (chars input)
           (Seq (lit "tomorrow") (Seq (Plus (Class Char.isSpace))
             (Seq (Group 1 (Seq (Class Char.isDigit) (Opt (Class Char.isDigit))))
               (Seq (lit ":")
                 (Seq (Group 2 (Times 2 (Class Char.isDigit)))
                    (Plus (Class Char.isSpace)))))))) in Etm
    as (t & _ & _ & Hdots & Hm).
  cbn. intros [= <-]. cbn [Parsed.text]. unfold group. rewrite Hm.
  by apply Hclean.
Qed.

Lemma parsed_text_clean_witness :
  Forall (fun x => Char.isLineTerminator x = false) (chars "Buy milk")
  ∧ trim (chars "Buy milk") = chars "Buy milk".
Proof.
  apply (parsed_text_clean "in 10m   Buy milk  " initial
           (Parsed.mk (1755000000000 + 600000) "Buy milk" "in 10m")).
  vm_compute. reflexivity.
Defined.

(** ** The absolute and the next-day grammar on their general form *)

Lemma digit_not_dash c : Char.isDigit c = true -> c ≠ "-"%char.
Proof. destruct c as [[] [] [] [] [] [] [] []]; vm_compute; congruence. Qed.

Lemma rmatch_Empty input k s c : rmatch input Empty k s c = k s c.
Proof. done. Qed.

(** The part [:(\d{2})\s+(.+)$] of a pattern, the minutes being group [n]. *)
Lemma exec_minutes_tail input n n1 n2 sp c rest caps :
  Char.isDigit n1 = true -> Char.isDigit n2 = true ->
  sp <> [] -> Forall (fun x => Char.isSpace x = true) sp ->
  Char.isSpace c = false ->
  Forall (fun x => Char.isDot x = true) (c :: rest) ->
  rmatch input
    (Seq (lit ":")
       (Seq (Group n (Times 2 (Class Char.isDigit)))
          (Seq (Plus (Class Char.isSpace))
             (Seq (Group (S n) (Plus (Class Char.isDot))) Eos))))
    Regex.accept (":"%char :: n1 :: n2 :: sp ++ c :: rest) caps
  = Some (<[S n := c :: rest]> (<[n := [n1; n2]]> caps)).
Proof.
  intros Hn1 Hn2 Hsp Fsp Hc Fdot.
  destruct sp as [|z sp]; [done|]. inversion_clear Fsp as [|?? Hz Fsp'].
  inversion_clear Fdot as [|?? Hcd Frest].
  change (lit ":") with (Class (Char.isChar ":")).
  cbn [Times]. do 1 (rewrite ?rmatch_Seq; rewrite rmatch_class_true by done;
     rewrite ?rmatch_Empty).
  rewrite rmatch_Seq, rmatch_Group.
  do 2 (rewrite ?rmatch_Seq; rewrite rmatch_class_true by done;
     rewrite ?rmatch_Empty).
  change (n1 :: n2 :: ?l) with ([n1; n2] ++ l) at 1 2. rewrite take_run.
  rewrite rmatch_Seq.
  change ((z :: sp) ++ ?l) with (z :: sp ++ l).
  rewrite rmatch_plus_class; [|done|done|done].
  apply backoff_rest.
  rewrite rmatch_Seq, rmatch_Group.
  rewrite <- (app_nil_r rest) at 1.
  rewrite rmatch_plus_class; [|done|done|done].
  apply backoff_rest. rewrite rmatch_Eos_nil. unfold accept.
  by rewrite take_ge by (simpl; lia).
Qed.

(** The part [(\d{1,2}):(\d{2})\s+(.+)$], the hour being group [n]. *)
Lemma exec_clock_tail input n h1 hopt n1 n2 sp c rest caps :
  Char.isDigit h1 = true -> Forall (fun x => Char.isDigit x = true) hopt ->
  (length hopt <= 1)%nat ->
  Char.isDigit n1 = true -> Char.isDigit n2 = true ->
  sp <> [] -> Forall (fun x => Char.isSpace x = true) sp ->
  Char.isSpace c = false ->
  Forall (fun x => Char.isDot x = true) (c :: rest) ->
  rmatch input
    (Seq (Group n (Seq (Class Char.isDigit) (Opt (Class Char.isDigit))))
       (Seq (lit ":")
          (Seq (Group (S n) (Times 2 (Class Char.isDigit)))
             (Seq (Plus (Class Char.isSpace))
                (Seq (Group (S (S n)) (Plus (Class Char.isDot))) Eos)))))
    Regex.accept
    ((h1 :: hopt) ++ ":"%char :: n1 :: n2 :: sp ++ c :: rest) caps
  = Some (<[S (S n) := c :: rest]>
            (<[S n := [n1; n2]]> (<[n := h1 :: hopt]> caps))).
Proof.
  intros Hh1 Fh Hlen Hn1 Hn2 Hsp Fsp Hc Fdot.
  rewrite rmatch_Seq, rmatch_Group.
  cbn [app]. rewrite rmatch_Seq, rmatch_class_true by done.
  destruct hopt as [|h2 [|]]; [| |simpl in Hlen; lia]; cbn [app].
  - rewrite rmatch_Opt_skip by (by apply rmatch_class_stops).
    change (h1 :: ?l) with ([h1] ++ l) at 1 2. rewrite take_run.
    by apply exec_minutes_tail.
  - inversion_clear Fh as [|?? Hh2 _].
    apply rmatch_Opt_take. rewrite rmatch_class_true by done.
    change (h1 :: h2 :: ?l) with ([h1; h2] ++ l) at 1 2. rewrite take_run.
    by apply exec_minutes_tail.
Qed.

Lemma exec_tomorrow_general sp h1 hopt n1 n2 sp2 c rest :
  sp <> [] -> Forall (fun x => Char.isSpace x = true) sp ->
  Char.isDigit h1 = true -> Forall (fun x => Char.isDigit x = true) hopt ->
  (length hopt <= 1)%nat ->
  Char.isDigit n1 = true -> Char.isDigit n2 = true ->
  sp2 <> [] -> Forall (fun x => Char.isSpace x = true) sp2 ->
  Char.isSpace c = false ->
  Forall (fun x => Char.isDot x = true) (c :: rest) ->
  Regex.exec re_tomorrow
    (chars "tomorrow" ++ sp ++ (h1 :: hopt)
       ++ ":"%char :: n1 :: n2 :: sp2 ++ c :: rest)
  = Some (<[3%nat := c :: rest]>
            (<[2%nat := [n1; n2]]> (<[1%nat := h1 :: hopt]> ∅))).
Proof.
  intros Hsp Fsp Hh1 Fh Hlen Hn1 Hn2 Hsp2 Fsp2 Hc Fdot.
  unfold re_tomorrow, ws, digit, dot. cbn [Regex.chain]. rewrite exec_anchored.
  generalize (chars "tomorrow" ++ sp ++ (h1 :: hopt)
                ++ ":"%char :: n1 :: n2 :: sp2 ++ c :: rest) at 1.
  intros input.
  destruct sp as [|y sp]; [done|]. inversion_clear Fsp as [|?? Hy Fsp'].
  rewrite rmatch_Seq.
  change (lit "tomorrow") with
    (Regex.chain (map (fun p => Class (Char.isChar p)) (chars "tomorrow"))).
  cbn [chars list_ascii_of_string map Regex.chain app].
  do 8 (rewrite ?rmatch_Seq; rewrite rmatch_class_true by done;
     rewrite ?rmatch_Empty).
  rewrite rmatch_Seq.
  change ((y :: sp) ++ ?l) with (y :: sp ++ l).
  rewrite rmatch_plus_class; [|done|done|by simpl; apply digit_not_space].
  apply backoff_rest.
  by apply (exec_clock_tail input 1).
Qed.

Lemma exec_at_general sp y1 y2 y3 y4 m1 m2 d1 d2 sp2 h1 hopt n1 n2 sp3 c rest :
  sp <> [] -> Forall (fun x => Char.isSpace x = true) sp ->
  Forall (fun x => Char.isDigit x = true) [y1; y2; y3; y4; m1; m2; d1; d2] ->
  sp2 <> [] -> Forall (fun x => Char.isSpace x = true) sp2 ->
  Char.isDigit h1 = true -> Forall (fun x => Char.isDigit x = true) hopt ->
  (length hopt <= 1)%nat ->
  Char.isDigit n1 = true -> Char.isDigit n2 = true ->
  sp3 <> [] -> Forall (fun x => Char.isSpace x = true) sp3 ->
  Char.isSpace c = false ->
  Forall (fun x => Char.isDot x = true) (c :: rest) ->
  Regex.exec re_at
    (chars "at" ++ sp
       ++ [y1; y2; y3; y4; "-"%char; m1; m2; "-"%char; d1; d2] ++ sp2
       ++ (h1 :: hopt) ++ ":"%char :: n1 :: n2 :: sp3 ++ c :: rest)
  = Some (<[4%nat := c :: rest]>
            (<[3%nat := [n1; n2]]>
               (<[2%nat := h1 :: hopt]>
                  (<[1%nat := [y1; y2; y3; y4; "-"%char; m1; m2; "-"%char;
                               d1; d2]]> ∅)))).
Proof.
  intros Hsp Fsp Fdate Hsp2 Fsp2 Hh1 Fh Hlen Hn1 Hn2 Hsp3 Fsp3 Hc Fdot.
  unfold re_at, ws, digit, dot. cbn [Regex.chain]. rewrite exec_anchored.
  generalize (chars "at" ++ sp
       ++ [y1; y2; y3; y4; "-"%char; m1; m2; "-"%char; d1; d2] ++ sp2
       ++ (h1 :: hopt) ++ ":"%char :: n1 :: n2 :: sp3 ++ c :: rest) at 1.
  intros input.
  destruct sp as [|y sp]; [done|]. inversion_clear Fsp as [|?? Hy Fsp'].
  destruct sp2 as [|z sp2]; [done|]. inversion_clear Fsp2 as [|?? Hz Fsp2'].
  apply Forall_cons in Fdate as [Hy1 Fdate].
  apply Forall_cons in Fdate as [Hy2 Fdate].
  apply Forall_cons in Fdate as [Hy3 Fdate].
  apply Forall_cons in Fdate as [Hy4 Fdate].
  apply Forall_cons in Fdate as [Hm1 Fdate].
  apply Forall_cons in Fdate as [Hm2 Fdate].
  apply Forall_cons in Fdate as [Hd1 Fdate].
  apply Forall_cons in Fdate as [Hd2 _].
  rewrite rmatch_Seq.
  change (lit "at") with (Seq (Class (Char.isChar "a")) (Class (Char.isChar "t"))).
  change (lit "-") with (Class (Char.isChar "-")).
  cbn [chars list_ascii_of_string app Times].
  do 2 (rewrite ?rmatch_Seq; rewrite rmatch_class_true by done;
     rewrite ?rmatch_Empty).
  rewrite rmatch_Seq.
  rewrite rmatch_plus_class; [|done|done|by simpl; apply digit_not_space].
  apply backoff_rest.
  rewrite rmatch_Seq, rmatch_Group.
  do 10 (rewrite ?rmatch_Seq; rewrite rmatch_class_true by done;
     rewrite ?rmatch_Empty).
  match goal with
  | |- context [take _ (y1 :: y2 :: y3 :: y4 :: "-"%char :: m1 :: m2 :: "-"%char
                          :: d1 :: d2 :: ?l)] =>
      change (y1 :: y2 :: y3 :: y4 :: "-"%char :: m1 :: m2 :: "-"%char
                 :: d1 :: d2 :: l)
        with ([y1; y2; y3; y4; "-"%char; m1; m2; "-"%char; d1; d2] ++ l)
  end.
  rewrite take_run.
  rewrite rmatch_Seq.
  rewrite rmatch_plus_class; [|done|done|by simpl; apply digit_not_space].
  apply backoff_rest.
  by apply (exec_clock_tail input 2).
Qed.

Lemma split_sep sep l : split sep (sep :: l) = [] :: split sep l.
Proof. simpl. by rewrite bool_decide_true. Qed.

Lemma split_other sep c l :
  c ≠ sep ->
  split sep (c :: l)
  = match split sep l with p :: ps => (c :: p) :: ps | [] => [[c]] end.
Proof. intros H. simpl. by rewrite bool_decide_false. Qed.

Lemma split_date y1 y2 y3 y4 m1 m2 d1 d2 :
  Forall (fun x => Char.isDigit x = true) [y1; y2; y3; y4; m1; m2; d1; d2] ->
  split "-" [y1; y2; y3; y4; "-"%char; m1; m2; "-"%char; d1; d2]
  = [[y1; y2; y3; y4]; [m1; m2]; [d1; d2]].
Proof.
  intros F.
  apply Forall_cons in F as [Hy1 F]. apply Forall_cons in F as [Hy2 F].
  apply Forall_cons in F as [Hy3 F]. apply Forall_cons in F as [Hy4 F].
  apply Forall_cons in F as [Hm1 F]. apply Forall_cons in F as [Hm2 F].
  apply Forall_cons in F as [Hd1 F]. apply Forall_cons in F as [Hd2 _].
  rewrite (split_other _ y1), (split_other _ y2), (split_other _ y3),
    (split_other _ y4), split_sep, (split_other _ m1), (split_other _ m2),
    split_sep, (split_other _ d1), (split_other _ d2)
    by (by apply digit_not_dash).
  done.
Qed.

(** The absolute grammar on its general form: [at], a date of four, two and
    two digits, a time of one or two and two digits, and a text without line
    break, separated by white space. The due time is what the host's [Date]
    makes of the five numbers (month minus one) in local time, with no
    validation of the calendar; the clock is not read. *)
Theorem parse_at_general (sp : list ascii) (y1 y2 y3 y4 m1 m2 d1 d2 : ascii)
    (sp2 : list ascii) (h1 : ascii) (hopt : list ascii) (n1 n2 : ascii)
    (sp3 : list ascii) (c : ascii) (rest : list ascii) (w : World) :
  sp <> [] -> Forall (fun x => Char.isSpace x = true) sp ->
  Forall (fun x => Char.isDigit x = true) [y1; y2; y3; y4; m1; m2; d1; d2] ->
  sp2 <> [] -> Forall (fun x => Char.isSpace x = true) sp2 ->
  Char.isDigit h1 = true -> Forall (fun x => Char.isDigit x = true) hopt ->
  (length hopt <= 1)%nat ->
  Char.isDigit n1 = true -> Char.isDigit n2 = true ->
  sp3 <> [] -> Forall (fun x => Char.isSpace x = true) sp3 ->
  Char.isSpace c = false ->
  Forall (fun x => Char.isDot x = true) (c :: rest) ->
  parseWhenAndText
    (str (chars "at" ++ sp
            ++ [y1; y2; y3; y4; "-"%char; m1; m2; "-"%char; d1; d2] ++ sp2
            ++ (h1 :: hopt) ++ ":"%char :: n1 :: n2 :: sp3 ++ c :: rest)) w
  = (Some (Parsed.mk
             (Date.make (localTZA w)
                (Number_of_digits [y1; y2; y3; y4])
                (Number_of_digits [m1; m2] - 1)
                (Number_of_digits [d1; d2])
                (Number_of_digits (h1 :: hopt))
                (Number_of_digits [n1; n2]))
             (str (trim (c :: rest)))
             ("at " ++ str [y1; y2; y3; y4; "-"%char; m1; m2; "-"%char; d1; d2]
                ++ " " ++ str (h1 :: hopt) ++ ":" ++ str [n1; n2])),
     w).
Proof.
  intros Hsp Fsp Fdate Hsp2 Fsp2 Hh1 Fh Hlen Hn1 Hn2 Hsp3 Fsp3 Hc Fdot.
  unfold parseWhenAndText, orElse, parseInSyntax, parseAtSyntax.
  rewrite chars_str.
  assert (forall l, Regex.exec re_in (chars "at" ++ l) = None) as ->
    by (intros l; by apply (exec_in_other "a")).
  rewrite exec_at_general by done.
  unfold group.
  rewrite !lookup_insert_ne by done.
  repeat first [ rewrite lookup_insert_eq
               | rewrite lookup_insert_ne by done ].
  cbn [default from_option id].
  rewrite (split_date _ _ _ _ _ _ _ _ Fdate).
  done.
Qed.

Lemma parse_at_general_witness :
  parseWhenAndText "at 2025-08-22 15:30 Team sync" initial
  = (Some (Parsed.mk 1755876600000 "Team sync" "at 2025-08-22 15:30"),
     initial).
Proof.
  apply (parse_at_general (chars " ") "2" "0" "2" "5" "0" "8" "2" "2"
           (chars " ") "1" (chars "5") "3" "0" (chars " ") "T"
           (chars "eam sync") initial);
    try done; try reflexivity; try (simpl; lia); repeat constructor.
Defined.

(** The next-day grammar on its general form: [tomorrow], a time of one or
    two and two digits, and a text without line break, separated by white
    space. The due time is what the host's [Date] makes of the local year,
    month and day of the clock reading, the day plus one, and the two
    numbers. *)
Theorem parse_tomorrow_general (sp : list ascii) (h1 : ascii)
    (hopt : list ascii) (n1 n2 : ascii) (sp2 : list ascii) (c : ascii)
    (rest : list ascii) (w : World) :
  sp <> [] -> Forall (fun x => Char.isSpace x = true) sp ->
  Char.isDigit h1 = true -> Forall (fun x => Char.isDigit x = true) hopt ->
  (length hopt <= 1)%nat ->
  Char.isDigit n1 = true -> Char.isDigit n2 = true ->
  sp2 <> [] -> Forall (fun x => Char.isSpace x = true) sp2 ->
  Char.isSpace c = false ->
  Forall (fun x => Char.isDot x = true) (c :: rest) ->
  let now := clock w (reads w) in
  let tza := localTZA w in
  parseWhenAndText
    (str (chars "tomorrow" ++ sp ++ (h1 :: hopt)
            ++ ":"%char :: n1 :: n2 :: sp2 ++ c :: rest)) w
  = (Some (Parsed.mk
             (Date.make tza (Date.getFullYear tza now) (Date.getMonth tza now)
                (Date.getDate tza now + 1)
                (Number_of_digits (h1 :: hopt)) (Number_of_digits [n1; n2]))
             (str (trim (c :: rest)))
             ("tomorrow " ++ str (h1 :: hopt) ++ ":" ++ str [n1; n2])),
     (Date_now w).2).
Proof.
  intros Hsp Fsp Hh1 Fh Hlen Hn1 Hn2 Hsp2 Fsp2 Hc Fdot now tza.
  unfold parseWhenAndText, orElse, parseInSyntax, parseAtSyntax,
    parseTomorrowSyntax.
  rewrite chars_str.
  assert (forall l, Regex.exec re_in (chars "tomorrow" ++ l) = None) as ->
    by (intros l; by apply (exec_in_other "t")).
  assert (forall l, Regex.exec re_at (chars "tomorrow" ++ l) = None) as ->
    by (intros l; by apply (exec_at_other "t")).
  rewrite exec_tomorrow_general by done.
  unfold group.
  repeat first [ rewrite lookup_insert_eq
               | rewrite lookup_insert_ne by done ].
  done.
Qed.

Lemma parse_tomorrow_general_witness :
  parseWhenAndText "tomorrow 9:05  Standup" initial
  = (Some (Parsed.mk 1755075900000 "Standup" "tomorrow 9:05"),
     (Date_now initial).2).
Proof.
  apply (parse_tomorrow_general (chars " ") "9" [] "0" "5" (chars "  ") "S"
           (chars "tandup") initial);
    try done; try reflexivity; try (simpl; lia); repeat constructor.
Defined.

(** ** The calendar of the host *)

(** [civil_from_days] yields a month from 1 to 12 and a date that
    [days_from_civil] maps back to the day number; from 1970-01-01 on the
    year is at least 1970. *)
Lemma civil_from_days_spec z :
  exists y m d, Date.civil_from_days z = (y, m, d)
    ∧ 1 <= m <= 12 ∧ 1 <= d <= 31
    ∧ Date.days_from_civil y m d = z
    ∧ (0 <= z -> 1970 <= y).
Proof.
  unfold Date.civil_from_days, Date.days_from_civil.
  set (z' := z + 719468).
  set (era := z' / 146097).
  set (doe := z' - era * 146097).
  assert (0 <= doe < 146097) as Hdoe.
  { subst doe era. pose proof (Z.div_mod z' 146097 ltac:(lia)).
    pose proof (Z.mod_pos_bound z' 146097 ltac:(lia)). lia. }
  assert (0 <= z -> 4 <= era ∧ (era = 4 -> 135080 <= doe)) as Hera.
  { intros Hz. subst doe era z'. Z.div_mod_to_equations. lia. }
  assert (z = era * 146097 + doe - 719468) as Hz' by (subst doe z'; lia).
  clearbody doe. clearbody era. clearbody z'.
  set (yoe := (doe - doe / 1460 + doe / 36524 - doe / 146096) / 365).
  set (doy := doe - (365 * yoe + yoe / 4 - yoe / 100)).
  set (mp := (5 * doy + 2) / 153).
  set (d := doy - (153 * mp + 2) / 5 + 1).
  assert (0 <= yoe <= 399 ∧ 0 <= doy <= 365) as [Hyoe Hdoy]
    by (subst doy yoe; Z.div_mod_to_equations; lia).
  assert (0 <= mp <= 11 ∧ 1 <= d <= 31) as [Hmp Hd]
    by (subst d mp; clearbody doy; Z.div_mod_to_equations; lia).
  assert (doe = yoe * 365 + yoe / 4 - yoe / 100 + doy) as Hdoe' by (subst doy; lia).
  assert (doy = (153 * mp + 2) / 5 + d - 1) as Hdoy' by (subst d; lia).
  assert (0 <= z -> era = 4 -> yoe = 369 -> 10 <= mp) as Hjan.
  { intros Hz He Hy. destruct (Hera Hz) as [_ Hd4]. specialize (Hd4 He).
    subst mp doy. rewrite Hy in *. Z.div_mod_to_equations. lia. }
  assert (0 <= z -> era = 4 -> 369 <= yoe) as Hy369.
  { intros Hz He. destruct (Hera Hz) as [_ Hd4]. specialize (Hd4 He).
    subst yoe. Z.div_mod_to_equations. lia. }
  clearbody d mp doy yoe.
  destruct (Z.ltb_spec mp 10) as [Hlt|Hge].
  - exists (yoe + era * 400), (mp + 3), d.
    rewrite (proj2 (Z.leb_gt (mp + 3) 2)) by lia.
    split; [done|]. split; [lia|]. split; [lia|]. split.
    + replace ((yoe + era * 400) / 400) with era
        by (Z.div_mod_to_equations; lia).
      replace (yoe + era * 400 - era * 400) with yoe by lia.
      replace (mp + 3 - 3) with mp by lia. lia.
    + intros Hz. destruct (Hera Hz) as [He _].
      destruct (Z.eq_dec era 4) as [E4|]; [|lia].
      specialize (Hy369 Hz E4). specialize (Hjan Hz E4). lia.
  - exists (yoe + era * 400 + 1), (mp - 9), d.
    rewrite (proj2 (Z.leb_le (mp - 9) 2)) by lia.
    split; [done|]. split; [lia|]. split; [lia|]. split.
    + replace (yoe + era * 400 + 1 - 1) with (yoe + era * 400) by lia.
      replace ((yoe + era * 400) / 400) with era
        by (Z.div_mod_to_equations; lia).
      replace (yoe + era * 400 - era * 400) with yoe by lia.
      replace (mp - 9 + 9) with mp by lia. lia.
    + intros Hz. destruct (Hera Hz) as [He _].
      destruct (Z.eq_dec era 4) as [E4|]; [|lia].
      specialize (Hy369 Hz E4). lia.
Qed.

Lemma digit_value c :
  Char.isDigit c = true -> 0 <= Z.of_N (Char.code c) - 48 <= 9.
Proof.
  unfold Char.isDigit. intros H. apply andb_prop in H as [H1 H2].
  apply N.leb_le in H1, H2. lia.
Qed.

Lemma Number_of_digits_nonneg l :
  Forall (fun x => Char.isDigit x = true) l -> 0 <= Number_of_digits l.
Proof.
  induction l as [|c l IH] using rev_ind; intros H; [done|].
  apply Forall_app in H as [Hl Hc]. inversion_clear Hc as [|?? Hc' _].
  unfold Number_of_digits. rewrite fold_left_app. simpl.
  fold (Number_of_digits l). specialize (IH Hl).
  pose proof (digit_value c Hc'). lia.
Qed.

(** On a host whose offset from UTC is constant, and from 1970 on in local
    time, the next-day grammar gives the local midnight that follows the
    clock reading plus the hours and minutes written, so a time after the
    reading the parser took, however close to midnight that was; hours and
    minutes are not bounded. *)
Theorem tomorrow_next_day (sp : list ascii) (h1 : ascii) (hopt : list ascii)
    (n1 n2 : ascii) (sp2 : list ascii) (c : ascii) (rest : list ascii)
    (off : Z) (w : World) :
  sp <> [] -> Forall (fun x => Char.isSpace x = true) sp ->
  Char.isDigit h1 = true -> Forall (fun x => Char.isDigit x = true) hopt ->
  (length hopt <= 1)%nat ->
  Char.isDigit n1 = true -> Char.isDigit n2 = true ->
  sp2 <> [] -> Forall (fun x => Char.isSpace x = true) sp2 ->
  Char.isSpace c = false ->
  Forall (fun x => Char.isDot x = true) (c :: rest) ->
  (forall t b, localTZA w t b = off) ->
  0 <= clock w (reads w) + off ->
  let now := clock w (reads w) in
  exists p,
    (parseWhenAndText
       (str (chars "tomorrow" ++ sp ++ (h1 :: hopt)
               ++ ":"%char :: n1 :: n2 :: sp2 ++ c :: rest)) w).1 = Some p
    ∧ Parsed.dueAt p
      = ((now + off) / Date.msPerDay + 1) * Date.msPerDay
        + Number_of_digits (h1 :: hopt) * 3600000
        + Number_of_digits [n1; n2] * 60000 - off
    ∧ now < Parsed.dueAt p.
Proof.
  intros Hsp Fsp Hh1 Fh Hlen Hn1 Hn2 Hsp2 Fsp2 Hc Fdot Hoff Hlocal now.
  pose proof (parse_tomorrow_general sp h1 hopt n1 n2 sp2 c rest w
                Hsp Fsp Hh1 Fh Hlen Hn1 Hn2 Hsp2 Fsp2 Hc Fdot) as Hparse.
  cbv zeta in Hparse. rewrite Hparse. cbn [fst]. eexists. split; [done|].
  cbn [Parsed.dueAt]. fold now.
  assert (0 <= Number_of_digits (h1 :: hopt)) as HH
    by (apply Number_of_digits_nonneg; by constructor).
  assert (0 <= Number_of_digits [n1; n2]) as HM
    by (apply Number_of_digits_nonneg; repeat constructor; done).
  set (H := Number_of_digits (h1 :: hopt)) in *.
  set (Mi := Number_of_digits [n1; n2]) in *.
  unfold Date.make, Date.getFullYear, Date.getMonth, Date.getDate,
    Date.LocalTime, Date.MakeDate, Date.MakeTime, Date.MakeDay.
  rewrite !Hoff.
  set (z := (now + off) / Date.msPerDay).
  assert (0 <= z) as Hz by (subst z; apply Z.div_pos; [lia|done]).
  destruct (civil_from_days_spec z) as (y & m & d & -> & Hm & Hd & Hback & Hy).
  specialize (Hy Hz). cbn [fst snd].
  replace ((0 <=? y) && (y <=? 99)) with false
    by (symmetry; apply andb_false_iff; right; apply Z.leb_gt; lia).
  replace ((m - 1) / 12) with 0 by (Z.div_mod_to_equations; lia).
  replace ((m - 1) mod 12 + 1) with m by (Z.div_mod_to_equations; lia).
  replace (y + 0) with y by lia.
  assert (Date.days_from_civil y m 1 = z - d + 1) as ->.
  { rewrite <- Hback. unfold Date.days_from_civil. lia. }
  assert (z * Date.msPerDay <= now + off < (z + 1) * Date.msPerDay) as Hday.
  { subst z. unfold Date.msPerDay. Z.div_mod_to_equations. lia. }
  unfold Date.msPerDay in *. split; lia.
Qed.

Lemma tomorrow_next_day_witness :
  exists p,
    (parseWhenAndText "tomorrow 9:05  Standup" initial).1 = Some p
    ∧ Parsed.dueAt p
      = ((1755000000000 + 0) / Date.msPerDay + 1) * Date.msPerDay
        + 9 * 3600000 + 5 * 60000 - 0
    ∧ 1755000000000 < Parsed.dueAt p.
Proof.
  apply (tomorrow_next_day (chars " ") "9" [] "0" "5" (chars "  ") "S"
           (chars "tandup") 0 initial);
    try done; try reflexivity; try (simpl; lia); repeat constructor.
Defined.

(** ** What [/remind] answers and does *)


(** ** One step on the stored records *)

Lemma stored_writeDB db w : stored (writeDB db w).2 = db.
Proof. done. Qed.

Lemma cmd_remind_cases chat user matched w :
  let w' := (cmd_remind chat user matched w).2 in
  outbox w' = outbox w
  ∧ ((stored w' = stored w ∧ writes w' = writes w
      ∧ forall id due text,
          (cmd_remind chat user matched w).1 ≠ Created id due text)
     ∨ exists p t,
         (cmd_remind chat user matched w).1
         = Created (lastId (stored w) + 1) (Parsed.dueAt p) (Parsed.text p)
         ∧ stored w'
           = {| lastId := lastId (stored w) + 1;
                reminders := reminders (stored w)
                  ++ [Reminder.mk (lastId (stored w) + 1) chat user
                        (Parsed.text p) (Parsed.dueAt p) t pending
                        (Parsed.how p) None None] |}
         ∧ writes w' = S (writes w)).
Proof.
  cbv zeta. unfold cmd_remind. case_bool_decide; [cbn; split; [done|by left]|].
  set (arg := str (trim (chars matched))).
  destruct (parse_frame arg w) as (Hd & Hw & Ho).
  unfold create. munfold.
  destruct (parseWhenAndText arg w) as [[p|] w1]; cbn [fst snd] in *;
    [|split; [done|left; by rewrite (stored_same _ _ Hd)]].
  case_bool_decide;
    [cbn [fst snd]; split; [done|left; by rewrite (stored_same _ _ Hd)]|].
  cbn [Date_now].
  destruct (Parsed.dueAt p <=? clock w1 (reads w1));
    [cbn [fst snd outbox writes]; split; [done|left];
     split; [by apply stored_same|done]|].
  cbn [fst snd outbox]. split; [done|right].
  exists p. eexists. unfold stored, readDB. cbn [fst disk writes].
  rewrite Hd, Hw. done.
Qed.

Lemma Forall2_insert_diag {A} (R : A -> A -> Prop) (l : list A) i x y :
  (forall a, R a a) -> l !! i = Some x -> R x y -> Forall2 R l (<[i:=y]> l).
Proof.
  intros HR Hi Hxy.
  assert (Forall2 R (<[i:=x]> l) (<[i:=y]> l)) as H.
  { apply Forall2_insert; [|done].
    apply Forall_Forall2_diag, Forall_forall. auto. }
  by rewrite list_insert_id in H.
Qed.

Lemma Forall2_evolves_refl l : Forall2 evolves l l.
Proof. apply Forall_Forall2_diag, Forall_forall. intros; by left. Qed.

Lemma sweep_evolves now l : forall w, Forall2 evolves l (sweep now l w).1.
Proof.
  induction l as [|r l IH]; intros w; [constructor|].
  rewrite sweep_cons. cbn [fst]. constructor; [|apply IH].
  destruct (turn_spec now r w) as (_ & _ & _ & _ & _ & ->).
  destruct (decide (isDue now r)) as [[Hp _]|]; [|by left].
  destruct (network w (length (outbox w))); [|by left].
  right; left. eauto.
Qed.

(** Every step keeps the stored reminders in place, each one as it was,
    marked sent from pending, or marked deleted; [/remind] alone may add
    one, pending and unstamped, at the end. *)
Lemma step_evolves c w :
  exists l' extra,
    reminders (stored (step c w).2) = l' ++ extra
    ∧ Forall2 evolves (reminders (stored w)) l'
    ∧ Forall fresh extra.
Proof.
  destruct c as [chat user matched|chat|chat id|]; unfold step; munfold.
  - destruct (cmd_remind_cases chat user matched w) as [_ H].
    destruct (cmd_remind chat user matched w) as [rep w']. cbn [fst snd] in *.
    destruct H as [(-> & _)|(p & t & _ & -> & _)].
    + exists (reminders (stored w)), []. rewrite app_nil_r.
      split; [done|]. split; [apply Forall2_evolves_refl|constructor].
    + eexists _, [_]. split; [done|].
      split; [apply Forall2_evolves_refl|]. by repeat constructor.
  - rewrite cmd_list_eq. cbn [fst snd].
    exists (reminders (stored w)), []. rewrite app_nil_r.
    split; [done|]. split; [apply Forall2_evolves_refl|constructor].
  - rewrite cmd_delete_eq.
    exists (reminders (stored (step (Delete chat id) w).2)), [].
    unfold step; munfold. rewrite cmd_delete_eq, app_nil_r.
    split; [done|]. split; [|constructor].
    destruct (id =? 0); [apply Forall2_evolves_refl|].
    destruct (list_find _ _) as [[i r]|] eqn:E;
      [|apply Forall2_evolves_refl].
    apply list_find_Some in E as (Hi & _ & _).
    cbn [fst snd]. rewrite stored_writeDB. cbn [reminders].
    eapply Forall2_insert_diag; [by left|done|].
    right; right; eauto.
  - exists (reminders (stored (tick w).2)), []. rewrite app_nil_r.
    destruct (tick w) as [[] w'] eqn:E. cbn [fst snd].
    replace w' with (tick w).2 by (by rewrite E).
    split; [done|]. split; [|constructor].
    rewrite tick_stored. cbn [reminders]. apply sweep_evolves.
Qed.

Lemma evolves_same_record r r' : evolves r r' -> same_record r r'.
Proof.
  intros [->|[(_ & t & ->)|(t & ->)]]; by repeat split.
Qed.

Lemma same_record_trans r1 r2 r3 :
  same_record r1 r2 -> same_record r2 r3 -> same_record r1 r3.
Proof. unfold same_record. intuition congruence. Qed.

Lemma evolves_stamped r r' : evolves r r' -> stamped r -> stamped r'.
Proof.
  unfold stamped.
  intros [->|[(Hp & t & ->)|(t & ->)]]; [done| |]; cbn.
  - rewrite Hp. intros [_ ->]. eauto.
  - eauto.
Qed.

Lemma fresh_stamped r : fresh r -> stamped r.
Proof. unfold fresh, stamped. by intros (-> & -> & ->). Qed.

Lemma step_stamped c w :
  Forall stamped (reminders (stored w)) ->
  Forall stamped (reminders (stored (step c w).2)).
Proof.
  intros Hw.
  destruct (step_evolves c w) as (l' & extra & -> & Hev & Hex).
  apply Forall_app. split.
  - apply Forall_forall. intros r' Hr'.
    apply list_elem_of_lookup in Hr' as [i Hi].
    destruct (Forall2_lookup_r _ _ _ _ _ Hev Hi) as (r & Hr & Hrr').
    eapply evolves_stamped; [done|].
    eapply Forall_lookup_1; done.
  - eapply Forall_impl; [done|]. apply fresh_stamped.
Qed.

(** ** Records over a run *)

(** Over any sequence of handler calls and scheduler passes, run one after
    another, a stored reminder is never removed or moved, and its id, chat,
    user, text, due time, creation time and descriptor never change. *)
Theorem run_keeps_records (cs : list Command) (w : World) (i : nat)
    (r : Reminder.t) :
  reminders (stored w) !! i = Some r ->
  exists r',
    reminders (stored (run cs w).2) !! i = Some r' ∧ same_record r r'.
Proof.
  revert w r. induction cs as [|c cs IH]; intros w r Hi.
  - exists r. split; [done|by repeat split].
  - rewrite run_cons. cbn [snd].
    destruct (step_evolves c w) as (l' & extra & Hl & Hev & _).
    destruct (Forall2_lookup_l _ _ _ _ _ Hev Hi) as (r1 & Hi1 & Hr1).
    destruct (IH (step c w).2 r1) as (r' & Hi' & Hr').
    { rewrite Hl. by apply lookup_app_l_Some. }
    exists r'. split; [done|].
    eapply same_record_trans; [by apply evolves_same_record|done].
Qed.

Lemma run_keeps_records_witness :
  exists r',
    reminders (stored (run [Tick; Delete 7 1; Remind 7 None "in 5m tea"]
                         stalled).2) !! 0%nat = Some r'
    ∧ Reminder.text r' = "x"%string ∧ Reminder.dueAt r' = 1754999999000.
Proof.
  destruct (run_keeps_records [Tick; Delete 7 1; Remind 7 None "in 5m tea"]
              stalled 0
              (Reminder.mk 1 7 None "x" 1754999999000 1754999990000 pending
                 "in 9s" None None) eq_refl)
    as (r' & Hr' & _ & _ & _ & Ht & Hd & _).
  exists r'. auto.
Defined.

(** From a store whose reminders carry the stamps of their status (the
    empty store is one), every run keeps it so: a pending reminder has
    neither [sentAt] nor [deletedAt], a sent one has a [sentAt] and no
    [deletedAt], a deleted one has a [deletedAt]. *)
Theorem run_stamped (cs : list Command) (w : World) :
  Forall stamped (reminders (stored w)) ->
  Forall stamped (reminders (stored (run cs w).2)).
Proof.
  revert w. induction cs as [|c cs IH]; intros w Hw; [done|].
  rewrite run_cons. cbn [snd]. by apply IH, step_stamped.
Qed.

Lemma run_stamped_witness :
  Reminder.status
    <$> reminders (stored (run [Tick; Delete 7 1; Remind 7 None "in 5m tea";
                                Tick] flaky).2)
  = [deleted; sent; pending]
  ∧ Forall stamped
      (reminders (stored (run [Tick; Delete 7 1; Remind 7 None "in 5m tea";
                               Tick] flaky).2)).
Proof.
  split; [vm_compute; reflexivity|].
  apply run_stamped. vm_compute. by repeat constructor.
Defined.

(** ** Deliveries and stamps *)

Lemma sent_stamps_cons r l :
  sent_stamps (r :: l)
  = ((if decide (is_Some (Reminder.sentAt r)) then 1 else 0)
     + sent_stamps l)%nat.
Proof.
  unfold sent_stamps. rewrite filter_cons. by destruct (decide _).
Qed.

Lemma sent_stamps_app l l' :
  sent_stamps (l ++ l') = (sent_stamps l + sent_stamps l')%nat.
Proof. unfold sent_stamps. by rewrite filter_app, length_app. Qed.

Lemma sent_stamps_same l l' :
  Forall2 (fun r r' => Reminder.sentAt r' = Reminder.sentAt r) l l' ->
  sent_stamps l' = sent_stamps l.
Proof.
  induction 1 as [|r r' l l' Hr _ IH]; [done|].
  by rewrite !sent_stamps_cons, Hr, IH.
Qed.

Lemma sweep_delivered now l : forall w,
  Forall stamped l ->
  (delivered (outbox (sweep now l w).2) + sent_stamps l
   = delivered (outbox w) + sent_stamps (sweep now l w).1)%nat.
Proof.
  induction l as [|r l IH]; intros w Hl; [done|].
  apply Forall_cons in Hl as [Hr Hl].
  rewrite sweep_cons. cbn [fst snd].
  specialize (IH (turn now r w).2 Hl).
  destruct (turn_spec now r w) as (_ & _ & _ & _ & Hbox & Hres).
  rewrite !sent_stamps_cons, Hres. rewrite Hbox, delivered_app in IH.
  rewrite filter_cons, filter_nil in IH.
  destruct (decide (isDue now r)) as [[Hp _]|].
  - unfold stamped in Hr. rewrite Hp in Hr. destruct Hr as [Hs _].
    cbn [attempts_from] in IH. rewrite delivered_one in IH. rewrite Hs.
    destruct (network w (length (outbox w))); cbn in IH |- *; rewrite ?Hs;
      rewrite ?(decide_True (P := is_Some (Some _))) by eauto;
      repeat (rewrite (decide_False (P := is_Some None)) by (by intros [? ?]));
      lia.
  - cbn [attempts_from] in IH. change (delivered []) with 0%nat in IH. lia.
Qed.

Lemma step_delivered c w :
  Forall stamped (reminders (stored w)) ->
  (delivered (outbox (step c w).2) + sent_stamps (reminders (stored w))
   = delivered (outbox w) + sent_stamps (reminders (stored (step c w).2)))%nat.
Proof.
  intros Hw.
  destruct c as [chat user matched|chat|chat id|]; unfold step; munfold.
  - destruct (cmd_remind_cases chat user matched w) as [Ho H].
    destruct (cmd_remind chat user matched w) as [rep w']. cbn [fst snd] in *.
    rewrite Ho.
    destruct H as [(-> & _)|(p & t & _ & -> & _)]; [done|].
    cbn [reminders]. rewrite sent_stamps_app.
    change (sent_stamps [_]) with 0%nat. lia.
  - by rewrite cmd_list_eq.
  - rewrite cmd_delete_eq.
    destruct (id =? 0); [done|].
    destruct (list_find _ _) as [[i r]|] eqn:E; [|done].
    apply list_find_Some in E as (Hi & _ & _).
    cbn [fst snd]. rewrite stored_writeDB. cbn [reminders outbox writeDB snd].
    rewrite (sent_stamps_same (reminders (stored w)) (<[i:=_]> _)); [done|].
    by eapply Forall2_insert_diag.
  - destruct (tick w) as [[] w'] eqn:E. cbn [fst snd].
    replace w' with (tick w).2 by (by rewrite E).
    rewrite tick_stored, tick_outbox. cbn [reminders].
    pose proof (sweep_delivered (clock w (reads w)) (reminders (stored w))
                  (Date_now w).2 Hw) as H.
    destruct (sweep_frame (clock w (reads w)) (reminders (stored w))
                (Date_now w).2) as (_ & _ & _ & _ & Hbox & _).
    rewrite Hbox in H. exact H.
Qed.

(** From a store whose reminders carry the stamps of their status, over
    any run the [sendMessage] calls that resolved are as many as the
    reminders that gained a [sentAt]: each delivery is recorded on one
    reminder, and a reminder once recorded is not delivered again. *)
Theorem run_delivers_once (cs : list Command) (w : World) :
  Forall stamped (reminders (stored w)) ->
  (delivered (outbox (run cs w).2) + sent_stamps (reminders (stored w))
   = delivered (outbox w)
     + sent_stamps (reminders (stored (run cs w).2)))%nat.
Proof.
  revert w. induction cs as [|c cs IH]; intros w Hw; [done|].
  rewrite run_cons. cbn [snd].
  pose proof (step_delivered c w Hw).
  pose proof (IH (step c w).2 (step_stamped c w Hw)). lia.
Qed.

Lemma run_delivers_once_witness :
  (delivered (outbox (run [Tick; Tick; Delete 7 1; Tick] flaky).2)
   + sent_stamps (reminders (stored flaky))
   = delivered (outbox flaky)
     + sent_stamps (reminders (stored (run [Tick; Tick; Delete 7 1; Tick]
                                         flaky).2)))%nat.
Proof.
  apply run_delivers_once. vm_compute. by repeat constructor.
Defined.

(** ** [/delete] *)

(** [/delete] answers the usage line exactly when [Number(arg)] is [NaN]
    or zero; "not found" exactly when it is not an integer, or is an
    integer other than zero that no stored reminder has as its id together
    with the asking chat, whatever its status; and it confirms that id
    otherwise. Unless it confirms, it leaves the world as it was. *)
Theorem delete_outcomes (chat : Z) (id : Numeric) (w : World) :
  let rep := (delete_handler chat id w).1 in
  let owned := fun n r => Reminder.id r = n ∧ Reminder.chatId r = chat in
  (rep = DeleteUsage <-> id = NaN ∨ id = Integer 0)
  ∧ (rep = NotFound
     <-> id = NotInteger
         ∨ exists n, id = Integer n ∧ n ≠ 0
                     ∧ Forall (fun r => ¬ owned n r) (reminders (stored w)))
  ∧ (forall n,
       rep = Deleted n
       <-> id = Integer n ∧ n ≠ 0 ∧ Exists (owned n) (reminders (stored w)))
  ∧ ((exists n, rep = Deleted n) ∨ (delete_handler chat id w).2 = w).
Proof.
  cbv zeta. destruct id as [|n|]; cbn [delete_handler].
  - split; [|split; [|split]].
    + split; [auto|done].
    + split; [done|]. by intros [?|(? & ? & _)].
    + intros m. split; [done|]. by intros [? _].
    + by right.
  - rewrite cmd_delete_eq.
    destruct (Z.eqb_spec n 0) as [->|Hn]; cbn [fst snd].
    { split; [|split; [|split]].
      - split; [auto|done].
      - split; [done|]. by intros [?|(? & [= <-] & ? & _)].
      - intros m. split; [done|]. by intros ([= <-] & ? & _).
      - by right. }
    destruct (list_find _ _) as [[i r]|] eqn:E; cbn [fst snd].
    + apply list_find_Some in E as (Hi & Hr & _).
      split; [|split; [|split]].
      * split; [done|]. by intros [?|[= ?]].
      * split; [done|]. intros [?|(m & [= <-] & _ & Hall)]; [done|].
        exfalso. by apply (Forall_lookup_1 _ _ _ _ Hall Hi).
      * intros m. split.
        -- intros [= <-]. split; [done|]. split; [done|].
           apply Exists_exists. exists r. split; [|done].
           by eapply list_elem_of_lookup_2.
        -- by intros ([= <-] & _).
      * left. eauto.
    + apply list_find_None in E.
      split; [|split; [|split]].
      * split; [done|]. by intros [?|[= ?]].
      * split; [|done]. intros _. right. by exists n.
      * intros m. split; [done|].
        intros ([= <-] & _ & Hex). exfalso.
        apply Exists_exists in Hex as (r & Hin & Hr).
        by apply (proj1 (Forall_forall _ _) E r Hin).
      * by right.
  - split; [|split; [|split]].
    + split; [done|]. by intros [?|?].
    + split; [auto|done].
    + intros m. split; [done|]. by intros [? _].
    + by right.
Qed.

(** [/delete] leaves in place and untouched every reminder that has another
    id or belongs to another chat. *)
Theorem delete_scoped (chat id : Z) (w : World) (i : nat) (r : Reminder.t) :
  reminders (stored w) !! i = Some r ->
  Reminder.chatId r ≠ chat ∨ Reminder.id r ≠ id ->
  reminders (stored (cmd_delete chat id w).2) !! i = Some r.
Proof.
  intros Hi Hr. rewrite cmd_delete_eq.
  destruct (id =? 0); [done|].
  destruct (list_find _ _) as [[i0 r0]|] eqn:E; [|done].
  apply list_find_Some in E as (Hi0 & [Hid Hchat] & _).
  cbn [fst snd]. rewrite stored_writeDB. cbn [reminders].
  destruct (decide (i0 = i)) as [->|Hne].
  - rewrite Hi in Hi0. injection Hi0 as ->. tauto.
  - by rewrite list_lookup_insert_ne.
Qed.

Lemma delete_scoped_witness :
  reminders (stored (cmd_delete 8 1 crowded).2) !! 0%nat
  = Some (Reminder.mk 1 7 None "late" 1755000900000 1754999990000 pending
            "in 15m" None None).
Proof.
  apply delete_scoped; [reflexivity|]. left. vm_compute. discriminate.
Defined.

(** ** What [/list] shows after a change *)

Lemma listed_cmd_list chat w :
  listed (cmd_list chat w).1
  = Array_sort byDueAt
      (filter (fun r => Reminder.chatId r = chat ∧ Reminder.status r = pending)
         (reminders (stored w))).
Proof.
  rewrite cmd_list_eq. cbn [fst].
  by destruct (Array_sort _ _).
Qed.

Lemma cmd_list_elem chat w r :
  r ∈ listed (cmd_list chat w).1
  <-> r ∈ reminders (stored w)
      ∧ Reminder.chatId r = chat ∧ Reminder.status r = pending.
Proof.
  rewrite listed_cmd_list, Array_sort_perm, list_elem_of_filter. tauto.
Qed.

(** When the stored ids are distinct and [/delete] confirms, the reminder
    with that id is on no chat's [/list] any more, and every other listed
    reminder still is. *)
Theorem delete_then_list (chat id : Z) (w : World) :
  NoDup (Reminder.id <$> reminders (stored w)) ->
  (cmd_delete chat id w).1 = Deleted id ->
  forall chat' r,
    r ∈ listed (cmd_list chat' (cmd_delete chat id w).2).1
    <-> r ∈ listed (cmd_list chat' w).1 ∧ Reminder.id r ≠ id.
Proof.
  intros Hnd Hrep chat' r. rewrite !cmd_list_elem.
  revert Hrep. rewrite cmd_delete_eq.
  destruct (id =? 0); [done|].
  destruct (list_find _ _) as [[i0 r0]|] eqn:E; [|done].
  intros _. apply list_find_Some in E as (Hi0 & [Hid Hchat] & _).
  cbn [fst snd]. rewrite stored_writeDB. cbn [reminders].
  split.
  - intros (Hin & Hc & Hp).
    apply list_elem_of_lookup in Hin as [i Hi].
    destruct (decide (i = i0)) as [->|Hne].
    + rewrite list_lookup_insert_eq in Hi
        by (by eapply lookup_lt_Some).
      injection Hi as <-. done.
    + rewrite list_lookup_insert_ne in Hi by done.
      split; [split; [by eapply list_elem_of_lookup_2|done]|].
      intros Hr. apply Hne.
      eapply NoDup_lookup; [exact Hnd| |].
      * by rewrite list_lookup_fmap, Hi.
      * rewrite list_lookup_fmap, Hi0. cbn. congruence.
  - intros [(Hin & Hc & Hp) Hr].
    apply list_elem_of_lookup in Hin as [i Hi].
    split; [|done].
    apply list_elem_of_lookup. exists i.
    rewrite list_lookup_insert_ne; [done|].
    intros ->. rewrite Hi in Hi0. injection Hi0 as ->. done.
Qed.

Lemma delete_then_list_witness :
  Reminder.id <$> listed (cmd_list 7 crowded).1 = [3; 1]
  ∧ (Reminder.mk 1 7 None "late" 1755000900000 1754999990000 pending
       "in 15m" None None
     ∉ listed (cmd_list 7 (cmd_delete 7 1 crowded).2).1).
Proof.
  split; [reflexivity|].
  intros H.
  apply (delete_then_list 7 1 crowded) in H as [_ H];
    [by apply H| |reflexivity].
  apply (bool_decide_unpack _). vm_compute. exact I.
Defined.



(** ** Ties in [/list] *)

Lemma insert_by_ties (d : Z) x l :
  filter (fun r => Reminder.dueAt r = d) (insert_by byDueAt x l)
  = filter (fun r => Reminder.dueAt r = d) (x :: l).
Proof.
  induction l as [|y l IH]; [done|]. cbn [insert_by].
  unfold byDueAt at 1. destruct (Z.leb_spec (Reminder.dueAt x - Reminder.dueAt y) 0); [done|].
  rewrite filter_cons, IH, !filter_cons.
  destruct (decide (Reminder.dueAt y = d)), (decide (Reminder.dueAt x = d));
    try done; lia.
Qed.

Lemma Array_sort_ties (d : Z) l :
  filter (fun r => Reminder.dueAt r = d) (Array_sort byDueAt l)
  = filter (fun r => Reminder.dueAt r = d) l.
Proof.
  induction l as [|x l IH]; [done|].
  change (Array_sort byDueAt (x :: l))
    with (insert_by byDueAt x (Array_sort byDueAt l)).
  by rewrite insert_by_ties, !filter_cons, IH.
Qed.

(** [/list] shows reminders with the same due time in the order they have
    in the store. *)
Theorem list_ties_in_store_order (chat d : Z) (w : World) :
  filter (fun r => Reminder.dueAt r = d) (listed (cmd_list chat w).1)
  = filter (fun r => Reminder.dueAt r = d ∧ Reminder.chatId r = chat
                     ∧ Reminder.status r = pending)
      (reminders (stored w)).
Proof.
  rewrite listed_cmd_list, Array_sort_ties.
  induction (reminders (stored w)) as [|r l IH]; [done|].
  rewrite !filter_cons.
  destruct (decide (Reminder.chatId r = chat ∧ Reminder.status r = pending))
    as [Hc|Hc].
  - rewrite filter_cons.
    destruct (decide (Reminder.dueAt r = d)).
    + rewrite decide_True by tauto. by rewrite IH.
    + rewrite decide_False by tauto. done.
  - rewrite decide_False by tauto. done.
Qed.

(** ** The scheduler while the transport is down *)

Lemma sweep_offline now l : forall w,
  (forall k, network w k = false) -> (sweep now l w).1 = l.
Proof.
  induction l as [|r l IH]; intros w Hnet; [done|].
  rewrite sweep_cons. cbn [fst].
  destruct (turn_spec now r w) as ((_ & Hn & _) & _ & _ & _ & _ & ->).
  rewrite Hnet, IH by (intros k; by rewrite Hn).
  by destruct (decide _).
Qed.

Lemma attempts_from_offline net n l :
  (forall k, net k = false) ->
  attempts_from net n l = (fun r => (render r, false)) <$> l.
Proof.
  intros Hnet. revert n. induction l as [|r l IH]; intros n; [done|].
  cbn. by rewrite Hnet, IH.
Qed.

Lemma tick_offline_disk w :
  (forall k, network w k = false) -> disk (tick w).2 = disk w.
Proof.
  intros Hnet. rewrite tick_sweep. cbv zeta. cbn [snd].
  set (now := clock w (reads w)).
  destruct (filter (isDue now) (reminders (stored w))) as [|r0 l0] eqn:E.
  - by destruct (sweep_frame now (reminders (stored w)) (Date_now w).2)
      as (_ & -> & _).
  - cbn [writeDB snd disk]. rewrite sweep_offline by done.
    unfold stored, readDB in *. cbn [fst] in *.
    destruct (disk w) as [[]|]; [done|]. discriminate E.
Qed.

Lemma step_Tick w : (step Tick w).2 = (tick w).2.
Proof. unfold step. munfold. by destruct (tick w) as [[] ?]. Qed.

(** While no [sendMessage] resolves, a pass of the scheduler attempts every
    pending reminder that is due and the file keeps its content, after any
    number of passes: the reminders stay pending and are attempted again
    on every pass. *)
Theorem ticks_offline (n : nat) (w : World) :
  (forall k, network w k = false) ->
  disk (run (replicate n Tick) w).2 = disk w
  ∧ outbox (tick w).2
    = outbox w
      ++ ((fun r => (render r, false))
            <$> filter (isDue (clock w (reads w))) (reminders (stored w))).
Proof.
  intros Hnet. split.
  - revert w Hnet. induction n as [|n IH]; intros w Hnet; [done|].
    cbn [replicate]. rewrite run_cons. cbn [snd]. rewrite step_Tick.
    rewrite IH; [by apply tick_offline_disk|].
    destruct (tick_env w) as [(_ & Hn & _) _]. intros k. by rewrite Hn.
  - rewrite tick_outbox. cbv zeta. by rewrite attempts_from_offline.
Qed.

Lemma ticks_offline_witness :
  disk (run (replicate 3 Tick) stalled).2 = disk stalled
  ∧ length (outbox (tick stalled).2) = 1%nat.
Proof.
  destruct (ticks_offline 3 stalled (fun _ => eq_refl)) as [H1 H2].
  split; [exact H1|]. by rewrite H2.
Defined.

(** ** A pass of the scheduler with handlers running in between *)

Lemma attempt_during_nil rs i w : attempt_during [] rs i w = attempt rs i w.
Proof.
  unfold attempt_during, attempt. destruct (rs !! i); [|done].
  munfold. unfold sendMessage. cbn. done.
Qed.

Lemma forEach_during_nil due : forall k rs w,
  forEach_during (fun _ => []) k due rs w = forEach due rs w.
Proof.
  induction due as [|i due IH]; intros k rs w; [done|].
  cbn [forEach_during forEach]. munfold.
  rewrite attempt_during_nil. destruct (attempt rs i w). apply IH.
Qed.

(** With no update in between, the pass is [tick]. *)
Lemma tick_during_nil w : tick_during (fun _ => []) w = tick w.
Proof.
  unfold tick_during, tick. munfold.
  destruct (Date_now w) as [now w1]. destruct (readDB w1) as [db w2].
  rewrite forEach_during_nil. done.
Qed.

Lemma attempt_during_kept us rs0 rs i w :
  Forall2 kept_or_sent rs0 rs ->
  Forall2 kept_or_sent rs0 (attempt_during us rs i w).1.
Proof.
  intros H. unfold attempt_during.
  destruct (rs !! i) as [r|] eqn:Hi; [|done].
  munfold. destruct (sendMessage (render r) w) as [ok w1].
  destruct (handle_all us w1) as [[] w2].
  destruct ok; [|done]. cbn.
  apply Forall2_same_length_lookup. split.
  { rewrite length_insert. by eapply Forall2_length. }
  intros j a b Ha Hb.
  destruct (decide (j = i)) as [->|Hne].
  - rewrite list_lookup_insert_eq in Hb by (by eapply lookup_lt_Some).
    injection Hb as <-.
    destruct (Forall2_lookup_lr _ _ _ _ _ _ H Ha Hi) as [->|[t ->]];
      right; eauto.
  - rewrite list_lookup_insert_ne in Hb by done.
    by eapply Forall2_lookup_lr.
Qed.

Lemma forEach_during_kept gaps due : forall k rs0 rs w,
  Forall2 kept_or_sent rs0 rs ->
  Forall2 kept_or_sent rs0 (forEach_during gaps k due rs w).1.
Proof.
  induction due as [|i due IH]; intros k rs0 rs w H; [done|].
  cbn [forEach_during]. munfold.
  pose proof (attempt_during_kept (gaps k) rs0 rs i w H) as H1.
  destruct (attempt_during (gaps k) rs i w) as [rs1 w1].
  by apply IH.
Qed.

(** When a reminder is due at the start of a pass, the pass ends by
    writing the store it read at its start, with the reminders it
    delivered marked sent: the file then has the id counter and the
    reminders of that moment, whatever the handlers that ran while the
    sends were awaited have written. *)
Theorem tick_writes_its_snapshot (gaps : nat -> list Update) (w : World) :
  filter (isDue (clock w (reads w))) (reminders (stored w)) ≠ [] ->
  exists rs',
    disk (tick_during gaps w).2
    = Some {| lastId := lastId (stored w); reminders := rs' |}
    ∧ Forall2 kept_or_sent (reminders (stored w)) rs'.
Proof.
  intros Hdue. unfold tick_during. munfold.
  cbn [Date_now]. unfold readDB at 1. cbn [disk].
  change (match disk w with Some db => db | None => emptyDB end)
    with (stored w).
  set (now := clock w (reads w)) in *.
  set (rs := reminders (stored w)) in *.
  set (w1 := {| clock := clock w; reads := S (reads w) |}).
  pose proof (forEach_during_kept gaps (refs_from (isDue now) 0 rs) 0
                rs rs w1) as H.
  destruct (forEach_during gaps 0 _ rs w1) as [rs' w2].
  destruct (refs_from (isDue now) 0 rs) eqn:E.
  { by apply refs_from_nil in E. }
  exists rs'. split; [done|]. apply H.
  apply Forall_Forall2_diag, Forall_forall. intros; by left.
Qed.

Lemma tick_writes_its_snapshot_witness :
  exists rs',
    disk (tick_during (fun _ => [OnRemind 7 None "in 5m tea"]) flaky).2
    = Some {| lastId := 2; reminders := rs' |}
    ∧ length rs' = 2%nat
    ∧ lastId (stored (handle_all [OnRemind 7 None "in 5m tea"] flaky).2) = 3.
Proof.
  destruct (tick_writes_its_snapshot
              (fun _ => [OnRemind 7 None "in 5m tea"]) flaky)
    as (rs' & Hd & Hk); [vm_compute; discriminate|].
  exists rs'. split; [exact Hd|].
  split; [|reflexivity].
  apply Forall2_length in Hk. by rewrite <- Hk.
Defined.

(** ** The text [writeDB] writes, read back by [readDB] *)

(** *** String literals *)



(** *** Integers *)











(** *** One value *)









(** *** The loops *)














(** *** Objects and arrays *)




(** *** Reminders and the store *)











(** *** The store the handlers see in the value read *)








